(** * go-scim: the attribute model and the complex property

    A shallow embedding of

    - the [Attribute] struct with [ToSingleValued] and [ToOptional]
      (package core), over an explicit store of heap objects, and
    - [complexProperty] (src/core/prop/complex.go): construction, [Add],
      [Replace], [Delete], [Raw], [Matches], the relational operators and
      the structural hash,

    followed by the properties of the specification that concern them. *)

From Stdlib Require Import ZArith Ascii String List Lia.
From stdpp Require Import base option list gmap strings fin_maps.

Set Warnings "-register-all".

Local Open Scope string_scope.

(** ** Go values that reach a property *)

Module govalue.

(** The dynamic values an [interface{}] argument can hold.  [VMap] is a
    [map[string]interface{}]: its keys are distinct, and the list gives the
    entries in the order in which a [range] statement happens to visit
    them.  Go leaves that order open, so statements about [Add] quantify
    over every list.  [VOther] stands for a value of any further dynamic
    type (a float64, a typed map, a pointer, ...); it carries the type's
    name as the verb %T prints it. *)
Inductive value : Type :=
| VNil
| VBool (b : bool)
| VInt (n : Z)
| VString (s : string)
| VSlice (l : list value)
| VMap (m : list (string * value))
| VOther (goType : string).

(** What fmt prints for the verb %T. *)
Definition typeName (v : value) : string :=
  match v with
  | VNil => "<nil>"
  | VBool _ => "bool"
  | VInt _ => "int64"
  | VString _ => "string"
  | VSlice _ => "[]interface {}"
  | VMap _ => "map[string]interface {}"
  | VOther t => t
  end.

(** [m[k] = v] on a Go map: the entry of an existing key is overwritten in
    place, a new key gets a new entry. *)
Fixpoint mapSet (m : list (string * value)) (k : string) (v : value)
  : list (string * value) :=
  match m with
  | [] => [(k, v)]
  | (k', v') :: rest =>
      if String.eqb k' k then (k, v) :: rest else (k', v') :: mapSet rest k v
  end.

(** [m[k]] with the comma-ok form. *)
Fixpoint mapGet (m : list (string * value)) (k : string) : option value :=
  match m with
  | [] => None
  | (k', v') :: rest => if String.eqb k' k then Some v' else mapGet rest k
  end.

End govalue.
Export govalue.

(** ** Errors and panics *)

(** The two constructors of the repository's errors package that
    complex.go calls.  [InvalidValue] is given a format and its arguments;
    the model stores the formatted message. *)
Inductive error : Type :=
| InvalidValue (message : string)
| Internal (message : string).

(** A Go call either returns or panics. *)
Inductive res (A : Type) : Type :=
| Val (a : A)
| Panic (reason : string).
Arguments Val {A} a.
Arguments Panic {A} reason.

(** ** strings.ToLower and []byte(s) *)

Module gostrings.

(** [strings.ToLower] is library code with two paths.  A string of
    ASCII bytes only is lowered byte by byte, in the function itself.
    Any other string goes through [Map(unicode.ToLower, s)], which is
    driven by the Unicode tables of the library and maps every upper-case
    letter of Unicode: that path is the one operation of this class, and
    everything stated about [ToLower] holds for every function it may
    be. *)
Class UnicodeTables : Type := {
  mapToLower : string -> string
}.

(** [c < utf8.RuneSelf]. *)
Definition isASCIIByte (c : ascii) : bool := Nat.ltb (nat_of_ascii c) 128.

(** ['A' <= c && c <= 'Z']. *)
Definition isUpperByte (c : ascii) : bool :=
  (Nat.leb 65 (nat_of_ascii c) && Nat.leb (nat_of_ascii c) 90)%bool.

(** The first loop of [ToLower]: whether every byte is an ASCII byte
    and whether one of them is an upper-case letter. *)
Fixpoint isASCII (s : string) : bool :=
  match s with
  | EmptyString => true
  | String c rest => (isASCIIByte c && isASCII rest)%bool
  end.

Fixpoint hasUpper (s : string) : bool :=
  match s with
  | EmptyString => false
  | String c rest => (isUpperByte c || hasUpper rest)%bool
  end.

(** The body of the second loop, on ASCII strings:
    [if 'A' <= c && c <= 'Z' { c += 'a' - 'A' }]. *)
Definition lowerByte (c : ascii) : ascii :=
  let n := nat_of_ascii c in
  if (Nat.leb 65 n && Nat.leb n 90)%bool then ascii_of_nat (n + 32) else c.

Fixpoint lowerBytes (s : string) : string :=
  match s with
  | EmptyString => EmptyString
  | String c rest => String (lowerByte c) (lowerBytes rest)
  end.

Definition ToLower `{UnicodeTables} (s : string) : string :=
  if isASCII s then
    if negb (hasUpper s) then s else lowerBytes s
  else mapToLower s.

(** The conversion [[]byte(s)]: each byte as a number below 256. *)
Fixpoint bytesOf (s : string) : list Z :=
  match s with
  | EmptyString => []
  | String c rest => Z.of_nat (nat_of_ascii c) :: bytesOf rest
  end.

End gostrings.
Export gostrings.

(** ** hash/fnv and encoding/binary *)

Module fnv.

Local Open Scope Z_scope.

Definition offset64 : Z := 14695981039346656037.
Definition prime64 : Z := 1099511628211.
Definition wrap64 (x : Z) : Z := x mod 2 ^ 64.

(** One round of the 64-bit FNV-1a loop: [hash ^= c; hash *= prime64]
    on a uint64. *)
Definition step (hash c : Z) : Z := wrap64 (Z.lxor hash c * prime64).

(** [fnv.New64a()]. *)
Definition New64a : Z := offset64.

(** [h.Write(data)]: consumes every byte; the error result is always nil. *)
Definition Write (h : Z) (data : list Z) : Z * option error :=
  (fold_left step data h, None).

(** [h.Sum64()]. *)
Definition Sum64 (h : Z) : Z := h.

(** The digest of a whole byte string. *)
Definition sum64a (data : list Z) : Z := Sum64 (fold_left step data New64a).

(** [binary.LittleEndian.PutUint64(b, v)] on a fresh 8-byte slice. *)
Definition PutUint64 (v : Z) : list Z :=
  map (fun i => Z.land (Z.shiftr v (8 * Z.of_nat i)) 255) (seq 0 8).

End fnv.

(** ** Package core: the Attribute struct *)

Module core.

(** Addresses of heap objects.  A [*Attribute] is [None] for nil and
    [Some l] for the object at [l]. *)
Definition loc := positive.

(** A slice header: the pointer to its backing array, length and capacity.
    Two slices share their elements by reference exactly when their
    headers name the same array. *)
Record slice : Type := mkSlice {
  array : option loc;
  len : nat;
  cap : nat
}.

Record Attribute : Type := mkAttribute {
  Name : string;
  Description : string;
  Type_ : string;
  SubAttributes : slice;
  CanonicalValues : slice;
  MultiValued : bool;
  Required : bool;
  CaseExact : bool;
  Mutability : string;
  Returned : string;
  Uniqueness : string;
  ReferenceTypes : slice;
  Metadata : option loc
}.

(** The store of Attribute objects. *)
Abbreviation heap := (gmap loc Attribute).

(** [&Attribute{...}]: a new object at an address not in use. *)
Definition new (a : Attribute) (h : heap) : heap * loc :=
  let l := fresh (dom h) in (<[l := a]> h, l).

(** Reading through a pointer.  Go has no dangling pointers; [None] marks
    a store that does not hold the object. *)
Definition deref (h : heap) (l : loc) : option Attribute := h !! l.

Definition ToSingleValued (attr : option loc) (h : heap)
  : option (heap * option loc) :=
  match attr with
  | None => Some (h, None)
  | Some l =>
      a ← deref h l;
      if negb (MultiValued a) then Some (h, Some l)
      else
        let (h', l') :=
          new {| Name := Name a;
                 Description := Description a;
                 Type_ := Type_ a;
                 SubAttributes := SubAttributes a;
                 CanonicalValues := CanonicalValues a;
                 MultiValued := false;
                 Required := Required a;
                 CaseExact := CaseExact a;
                 Mutability := Mutability a;
                 Returned := Returned a;
                 Uniqueness := Uniqueness a;
                 ReferenceTypes := ReferenceTypes a;
                 Metadata := Metadata a |} h in
        Some (h', Some l')
  end.

Definition ToOptional (attr : option loc) (h : heap)
  : option (heap * option loc) :=
  match attr with
  | None => Some (h, None)
  | Some l =>
      a ← deref h l;
      if negb (Required a) then Some (h, Some l)
      else
        let (h', l') :=
          new {| Name := Name a;
                 Description := Description a;
                 Type_ := Type_ a;
                 SubAttributes := SubAttributes a;
                 CanonicalValues := CanonicalValues a;
                 MultiValued := MultiValued a;
                 Required := false;
                 CaseExact := CaseExact a;
                 Mutability := Mutability a;
                 Returned := Returned a;
                 Uniqueness := Uniqueness a;
                 ReferenceTypes := ReferenceTypes a;
                 Metadata := Metadata a |} h in
        Some (h', Some l')
  end.

(** Two attribute values that agree on every field other than the flags
    [MultiValued] and [Required].  Equal slice headers and equal metadata
    pointers mean that the elements and the metadata are shared, not
    copied. *)
Definition sameOtherFields (a b : Attribute) : Prop :=
  Name b = Name a /\ Description b = Description a /\ Type_ b = Type_ a
  /\ SubAttributes b = SubAttributes a
  /\ CanonicalValues b = CanonicalValues a
  /\ CaseExact b = CaseExact a /\ Mutability b = Mutability a
  /\ Returned b = Returned a /\ Uniqueness b = Uniqueness a
  /\ ReferenceTypes b = ReferenceTypes a /\ Metadata b = Metadata a.

(** No object of [h] is changed or lost in [h']. *)
Definition preserved (h h' : heap) : Prop :=
  forall k b, h !! k = Some b -> h' !! k = Some b.

(** [GoesBy]: the case-insensitive comparison of a name with the
    attribute's. *)
Definition GoesBy {U : UnicodeTables} (attr : option loc) (name : string)
    (h : heap) : option bool :=
  match attr with
  | None => Some false
  | Some l =>
      a ← deref h l;
      Some (String.eqb (ToLower name) (ToLower (Name a)))
  end.

(** Modelled from the spec: the protocol defaults named in section 3
    ("Type defaults to string, Mutability to readWrite, Returned to
    default, Uniqueness to none"); the constant declarations are not among
    the sources. *)
Definition TypeString := "string".
Definition MutabilityReadWrite := "readWrite".
Definition ReturnedDefault := "default".
Definition UniquenessNone := "none".

(** The assignments [attr.Type = t], [attr.Mutability = m], ... on the
    struct value. *)
Definition setType (t : string) (a : Attribute) : Attribute :=
  {| Name := Name a; Description := Description a; Type_ := t;
     SubAttributes := SubAttributes a; CanonicalValues := CanonicalValues a;
     MultiValued := MultiValued a; Required := Required a;
     CaseExact := CaseExact a; Mutability := Mutability a;
     Returned := Returned a; Uniqueness := Uniqueness a;
     ReferenceTypes := ReferenceTypes a; Metadata := Metadata a |}.

Definition setMutability (m : string) (a : Attribute) : Attribute :=
  {| Name := Name a; Description := Description a; Type_ := Type_ a;
     SubAttributes := SubAttributes a; CanonicalValues := CanonicalValues a;
     MultiValued := MultiValued a; Required := Required a;
     CaseExact := CaseExact a; Mutability := m;
     Returned := Returned a; Uniqueness := Uniqueness a;
     ReferenceTypes := ReferenceTypes a; Metadata := Metadata a |}.

Definition setReturned (r : string) (a : Attribute) : Attribute :=
  {| Name := Name a; Description := Description a; Type_ := Type_ a;
     SubAttributes := SubAttributes a; CanonicalValues := CanonicalValues a;
     MultiValued := MultiValued a; Required := Required a;
     CaseExact := CaseExact a; Mutability := Mutability a;
     Returned := r; Uniqueness := Uniqueness a;
     ReferenceTypes := ReferenceTypes a; Metadata := Metadata a |}.

Definition setUniqueness (u : string) (a : Attribute) : Attribute :=
  {| Name := Name a; Description := Description a; Type_ := Type_ a;
     SubAttributes := SubAttributes a; CanonicalValues := CanonicalValues a;
     MultiValued := MultiValued a; Required := Required a;
     CaseExact := CaseExact a; Mutability := Mutability a;
     Returned := Returned a; Uniqueness := u;
     ReferenceTypes := ReferenceTypes a; Metadata := Metadata a |}.

(** [len(s) == 0]. *)
Definition isEmpty (s : string) : bool := Nat.eqb (String.length s) 0.

(** [setDefaults]: the four conditional assignments, made in place on the
    object the receiver points to. *)
Definition setDefaults (attr : option loc) (h : heap) : option heap :=
  match attr with
  | None => Some h
  | Some l =>
      a ← deref h l;
      let a := if isEmpty (Type_ a) then setType TypeString a else a in
      let a :=
        if isEmpty (Mutability a) then setMutability MutabilityReadWrite a
        else a in
      let a :=
        if isEmpty (Returned a) then setReturned ReturnedDefault a else a in
      let a :=
        if isEmpty (Uniqueness a) then setUniqueness UniquenessNone a
        else a in
      Some (<[l := a]> h)
  end.

End core.

(** ** The attribute as complex.go reads it *)

Module schema.

(** Modelled from the spec: complex.go reaches its attribute only through
    the accessor methods of core.Attribute ([Name()], [Type()],
    [MultiValued()], [ForEachSubAttribute], [IsIdentity()], [Path()], ...),
    and that form of the type is not among the sources.  The record holds
    what section 3 of the specification lists and those accessors return:
    the name, the type, the multiplicity, the sub-attributes in declaration
    order, and from the metadata the identity flag and the path. *)
Inductive Attribute : Type := mkAttribute {
  Name : string;
  Type_ : string;
  MultiValued : bool;
  SubAttributes : list Attribute;
  IsIdentity : bool;
  Path : string
}.

Definition SingleValued (a : Attribute) : bool := negb (MultiValued a).

Definition CountSubAttributes (a : Attribute) : nat :=
  length (SubAttributes a).

(** Modelled from the spec: whether any sub-attribute is flagged
    identity (section 4.3, step 1 of the hash algorithm). *)
Definition HasIdentitySubAttributes (a : Attribute) : bool :=
  existsb IsIdentity (SubAttributes a).

(** Modelled from the spec: the type names of section 3. *)
Definition TypeString := "string".
Definition TypeInteger := "integer".
Definition TypeDecimal := "decimal".
Definition TypeBoolean := "boolean".
Definition TypeDateTime := "dateTime".
Definition TypeReference := "reference".
Definition TypeBinary := "binary".
Definition TypeComplex := "complex".

End schema.

(** ** The interface core.Property *)

Module Property.

(** The methods of core.Property that complex.go calls on its children.
    A method that can change the receiver returns the receiver's new state
    next to its result: [Hash] because implementations cache the digest,
    [Add] and [Delete] because they assign.  The three may panic; a panic
    keeps the state reached when it was raised. *)
Class impl (T : Type) : Type := {
  Attribute : T -> schema.Attribute;
  Raw : T -> value;
  IsUnassigned : T -> bool;
  Hash : T -> T * res Z;
  Present : T -> bool;
  Add : T -> value -> T * res (option error);
  Delete : T -> T * res (option error);
  Touched : T -> bool
}.

(** What the data model of the specification promises of every property:
    it stays bound to its attribute, and asking for the digest changes
    nothing that the read methods show. *)
Class lawful (T : Type) `{impl T} : Prop := {
  Add_Attribute : forall (c : T) v, Attribute (Add c v).1 = Attribute c;
  Delete_Attribute : forall c : T, Attribute (Delete c).1 = Attribute c;
  Hash_Attribute : forall c : T, Attribute (Hash c).1 = Attribute c;
  Hash_Raw : forall c : T, Raw (Hash c).1 = Raw c;
  Hash_IsUnassigned : forall c : T, IsUnassigned (Hash c).1 = IsUnassigned c
}.

(** The constructors of the other property kinds, which NewComplex picks
    from by multiplicity and type.  [NewComplex] itself is among them for a
    complex sub-attribute: the nested property is stored behind the
    interface like every other child. *)
Record constructors (T : Type) : Type := {
  NewMulti : schema.Attribute -> res T;
  NewString : schema.Attribute -> res T;
  NewInteger : schema.Attribute -> res T;
  NewDecimal : schema.Attribute -> res T;
  NewBoolean : schema.Attribute -> res T;
  NewDateTime : schema.Attribute -> res T;
  NewReference : schema.Attribute -> res T;
  NewBinary : schema.Attribute -> res T;
  NewComplex : schema.Attribute -> res T
}.
Arguments NewMulti {T}.
Arguments NewString {T}.
Arguments NewInteger {T}.
Arguments NewDecimal {T}.
Arguments NewBoolean {T}.
Arguments NewDateTime {T}.
Arguments NewReference {T}.
Arguments NewBinary {T}.
Arguments NewComplex {T}.

End Property.

(** ** Package prop: complexProperty (complex.go) *)

Module prop.

Import schema.

(** *** Calls that change a state and may panic *)

Definition M (S A : Type) : Type := S -> S * res A.

Definition ret {S A : Type} (a : A) : M S A := fun s => (s, Val a).

Definition bind {S A B : Type} (m : M S A) (k : A -> M S B) : M S B :=
  fun s =>
    match m s with
    | (s', Val a) => k a s'
    | (s', Panic reason) => (s', Panic reason)
    end.

Definition get {S : Type} : M S S := fun s => (s, Val s).

(** A deferred function that calls [recover()] and, when there was a
    panic, sets the named result. *)
Definition deferRecover {S A : Type} (body : M S A) (handler : S -> A)
  : M S A :=
  fun s =>
    match body s with
    | (s', Val a) => (s', Val a)
    | (s', Panic _) => (s', Val (handler s'))
    end.

Notation "x <~ m ; k" := (bind m (fun x => k))
  (at level 20, m at level 100, k at level 200, only parsing).

Section complex.

Context {U : UnicodeTables} {T : Type} `{Property.impl T}.

Record complexProperty : Type := mkComplex {
  attr : schema.Attribute;
  subProps : list T;
  nameIndex : gmap string nat;
  hash : Z
}.

Definition withSubProps (cs : list T) (p : complexProperty)
  : complexProperty :=
  {| attr := attr p; subProps := cs; nameIndex := nameIndex p;
     hash := hash p |}.

Definition withHash (h : Z) (p : complexProperty) : complexProperty :=
  {| attr := attr p; subProps := subProps p; nameIndex := nameIndex p;
     hash := h |}.

(** A method call on [p.subProps[i]]: the child is changed in place; an
    index outside the slice panics. *)
Definition onChild {A : Type} (i : nat) (call : T -> T * res A)
  : M complexProperty A :=
  fun p =>
    match subProps p !! i with
    | None => (p, Panic "index out of range")
    | Some c =>
        let (c', r) := call c in (withSubProps (<[i := c']> (subProps p)) p, r)
    end.

(** The statement [for i, prop := range p.subProps { ... }] whose body can
    change the child, change the variables [C] it closes over, leave the
    loop with an error, or panic. *)
Fixpoint rangeSubProps {C : Type}
    (body : nat -> T -> C -> (T * C) * res (option error))
    (i : nat) (cs : list T) (st : C) : (list T * C) * res (option error) :=
  match cs with
  | [] => (([], st), Val None)
  | c :: rest =>
      match body i c st with
      | ((c', st'), Val None) =>
          match rangeSubProps body (S i) rest st' with
          | ((rest', st''), r) => ((c' :: rest', st''), r)
          end
      | ((c', st'), r) => ((c' :: rest, st'), r)
      end
  end.

(** *** Construction *)

Definition newSubProperty (K : Property.constructors T)
    (subAttribute : schema.Attribute) : res T :=
  if MultiValued subAttribute then Property.NewMulti K subAttribute
  else if String.eqb (Type_ subAttribute) TypeString then
    Property.NewString K subAttribute
  else if String.eqb (Type_ subAttribute) TypeInteger then
    Property.NewInteger K subAttribute
  else if String.eqb (Type_ subAttribute) TypeDecimal then
    Property.NewDecimal K subAttribute
  else if String.eqb (Type_ subAttribute) TypeBoolean then
    Property.NewBoolean K subAttribute
  else if String.eqb (Type_ subAttribute) TypeDateTime then
    Property.NewDateTime K subAttribute
  else if String.eqb (Type_ subAttribute) TypeReference then
    Property.NewReference K subAttribute
  else if String.eqb (Type_ subAttribute) TypeBinary then
    Property.NewBinary K subAttribute
  else if String.eqb (Type_ subAttribute) TypeComplex then
    Property.NewComplex K subAttribute
  else Panic "invalid type".

(** The callback given to [ForEachSubAttribute]: it appends the new child
    and records its index under the lower-cased name. *)
Definition addSubAttribute (K : Property.constructors T)
    (acc : res (list T * gmap string nat)) (subAttribute : schema.Attribute)
  : res (list T * gmap string nat) :=
  match acc with
  | Panic reason => Panic reason
  | Val (subProps, nameIndex) =>
      match newSubProperty K subAttribute with
      | Panic reason => Panic reason
      | Val c =>
          let subProps := (subProps ++ [c])%list in
          Val (subProps,
               <[ToLower (Name subAttribute) := (length subProps - 1)%nat]>
                 nameIndex)
      end
  end.

Definition NewComplex (K : Property.constructors T) (attr : schema.Attribute)
  : res complexProperty :=
  if (negb (SingleValued attr)
      || negb (String.eqb (Type_ attr) TypeComplex))%bool
  then Panic "invalid attribute for complex property"
  else
    match fold_left (addSubAttribute K) (SubAttributes attr) (Val ([], ∅)) with
    | Panic reason => Panic reason
    | Val (subProps, nameIndex) =>
        Val {| attr := attr; subProps := subProps; nameIndex := nameIndex;
               hash := 0 |}
    end.

(** *** Read methods *)

Definition Attribute (p : complexProperty) : schema.Attribute := attr p.

Definition CountChildren (p : complexProperty) : nat := length (subProps p).

Definition ForEachChild {C : Type}
    (callback : nat -> T -> C -> (T * C) * res (option error))
  : M (complexProperty * C) (option error) :=
  fun '(p, st) =>
    match rangeSubProps callback 0 (subProps p) st with
    | ((cs, st'), r) => ((withSubProps cs p, st'), r)
    end.

Definition Raw (p : complexProperty) : value :=
  let values : list (string * value) := [] in
  match
    ForEachChild
      (fun _ child values =>
         ((child,
           mapSet values (Name (Property.Attribute child))
             (Property.Raw child)),
          Val None))
      (p, values)
  with
  | ((_, values), _) => VMap values
  end.

Definition IsUnassigned (p : complexProperty) : bool :=
  forallb Property.IsUnassigned (subProps p).

Definition Present (p : complexProperty) : bool :=
  existsb Property.Present (subProps p).

Definition Touched (p : complexProperty) : bool :=
  existsb Property.Touched (subProps p).

Definition NewChild (p : complexProperty) : Z := (-1)%Z.

Definition ChildAtIndex (p : complexProperty) (index : value)
  : res (option T) :=
  match index with
  | VString name =>
      match nameIndex p !! ToLower name with
      | None => Val None
      | Some i =>
          match subProps p !! i with
          | Some c => Val (Some c)
          | None => Panic "index out of range"
          end
      end
  | _ => Val None
  end.

Definition errIncompatibleValue (p : complexProperty) (v : value) : error :=
  InvalidValue
    ("value of type " ++ typeName v ++ " is incompatible with attribute '"
       ++ Path (attr p) ++ "'").

Definition errIncompatibleOp (p : complexProperty) : error :=
  Internal "incompatible operation".

(** *** The structural hash *)

(** The callback of [computeHash].  [h] is the running FNV-1a state that
    the closure captures. *)
Definition hashChild (hasIdentity : bool) (_ : nat) (child : T) (h : Z)
  : (T * Z) * res (option error) :=
  if (hasIdentity && negb (IsIdentity (Property.Attribute child)))%bool
  then ((child, h), Val None)
  else
    match fnv.Write h (bytesOf (Name (Property.Attribute child))) with
    | (h, Some err) => ((child, h), Val (Some err))
    | (h, None) =>
        if negb (Property.IsUnassigned child) then
          match Property.Hash child with
          | (child, Panic reason) => ((child, h), Panic reason)
          | (child, Val sum) =>
              let b := fnv.PutUint64 sum in
              match fnv.Write h b with
              | (h, Some err) => ((child, h), Val (Some err))
              | (h, None) => ((child, h), Val None)
              end
          end
        else ((child, h), Val None)
    end.

Definition computeHash : M complexProperty unit :=
  fun p =>
    let h := fnv.New64a in
    let hasIdentity := HasIdentitySubAttributes (attr p) in
    match ForEachChild (hashChild hasIdentity) (p, h) with
    | ((p, h), Panic reason) => (p, Panic reason)
    | ((p, h), Val (Some err)) => (p, Panic "error computing hash")
    | ((p, h), Val None) => (withHash (fnv.Sum64 h) p, Val tt)
    end.

Definition Hash : M complexProperty Z :=
  p <~ get ;
  if Z.eqb (hash p) 0 then
    (_ <~ computeHash ;
     p <~ get ;
     ret (hash p))
  else ret (hash p).

(** *** Comparison *)

Section matches.

(** [Attribute.Equals] of package core, which is not among the sources. *)
Variable Equals : schema.Attribute -> schema.Attribute -> bool.

(** [p.Matches(another)] for a complex [another].  Both sides may fill
    their hash cache, so both states are returned. *)
Definition Matches (p another : complexProperty)
  : (complexProperty * complexProperty) * res bool :=
  if negb (Equals (attr p) (Attribute another)) then ((p, another), Val false)
  else if negb (Nat.eqb (CountChildren p) (CountChildren another)) then
    ((p, another), Val false)
  else
    match Hash p with
    | (p, Panic reason) => ((p, another), Panic reason)
    | (p, Val hp) =>
        match Hash another with
        | (another, Panic reason) => ((p, another), Panic reason)
        | (another, Val ha) => ((p, another), Val (Z.eqb hp ha))
        end
    end.

End matches.

Definition EqualsTo (p : complexProperty) (v : value)
  : bool * option error := (false, Some (errIncompatibleOp p)).

Definition StartsWith (p : complexProperty) (v : string)
  : bool * option error := (false, Some (errIncompatibleOp p)).

Definition EndsWith (p : complexProperty) (v : string)
  : bool * option error := (false, Some (errIncompatibleOp p)).

Definition Contains (p : complexProperty) (v : string)
  : bool * option error := (false, Some (errIncompatibleOp p)).

Definition GreaterThan (p : complexProperty) (v : value)
  : bool * option error := (false, Some (errIncompatibleOp p)).

Definition LessThan (p : complexProperty) (v : value)
  : bool * option error := (false, Some (errIncompatibleOp p)).

(** *** Mutation *)

(** The loop [for k, v := range m] of [Add].  [Val None] means that the
    loop ran to its end, [Val (Some err)] that [Add] returns [err]. *)
Fixpoint addEntries (m : list (string * value))
  : M complexProperty (option error) :=
  match m with
  | [] => ret None
  | (k, v) :: rest =>
      p <~ get ;
      match nameIndex p !! ToLower k with
      | None => addEntries rest
      | Some i =>
          err <~ onChild i (fun c => Property.Add c v) ;
          match err with
          | Some e => ret (Some e)
          | None => addEntries rest
          end
      end
  end.

Definition Add (v : value) : M complexProperty (option error) :=
  match v with
  | VNil => ret None
  | VMap m =>
      err <~ addEntries m ;
      match err with
      | Some e => ret (Some e)
      | None => _ <~ computeHash ; ret None
      end
  | _ => p <~ get ; ret (Some (errIncompatibleValue p v))
  end.

Definition Delete : M complexProperty (option error) :=
  fun p =>
    match
      rangeSubProps
        (fun _ subProp (_ : unit) =>
           match Property.Delete subProp with
           | (subProp, r) => ((subProp, tt), r)
           end)
        0 (subProps p) tt
    with
    | ((cs, _), Val None) =>
        (_ <~ computeHash ; ret None) (withSubProps cs p)
    | ((cs, _), r) => (withSubProps cs p, r)
    end.

Definition Replace (v : value) : M complexProperty (option error) :=
  match v with
  | VNil => ret None
  | _ =>
      deferRecover
        (err <~ Delete ;
         match err with
         | Some e => ret (Some e)
         | None => Add v
         end)
        (fun p => Some (errIncompatibleValue p v))
  end.

(** [NewComplexOf]: a new property with the value added; an error of
    [Add] is raised as a panic. *)
Definition NewComplexOf (K : Property.constructors T)
    (attr : schema.Attribute) (v : value) : res complexProperty :=
  match NewComplex K attr with
  | Panic reason => Panic reason
  | Val p =>
      match Add v p with
      | (p, Val None) => Val p
      | (_, Val (Some (InvalidValue message)))
      | (_, Val (Some (Internal message))) => Panic message
      | (_, Panic reason) => Panic reason
      end
  end.

(** A complex property is itself a core.Property, so that it can be the
    child of another one. *)
#[global] Instance complexProperty_impl : Property.impl complexProperty := {
  Property.Attribute := Attribute;
  Property.Raw := Raw;
  Property.IsUnassigned := IsUnassigned;
  Property.Hash := Hash;
  Property.Present := Present;
  Property.Add := fun p v => Add v p;
  Property.Delete := Delete;
  Property.Touched := Touched
}.

End complex.

Arguments complexProperty T : clear implicits.

End prop.

(** ** A leaf property for concrete trees *)

Module stringProperty.

Import schema.

(** Modelled from the spec: the string leaf property of section 4.2,
    whose source is not among the files.  It holds at most one string,
    records whether it was ever changed, and caches its digest.  The
    specification fixes the digest only as a deterministic function of the
    type tag and the value; FNV-1a over the two is used here. *)
Record t : Type := mk {
  attr : schema.Attribute;
  v : option string;
  touched : bool;
  hash : Z
}.

Definition digest (a : schema.Attribute) (v : option string) : Z :=
  match v with
  | None => fnv.sum64a (bytesOf (Type_ a))
  | Some s => fnv.sum64a (bytesOf (Type_ a) ++ bytesOf s)%list
  end.

(** Modelled from the spec: "created unassigned via a factory keyed by
    Attribute"; a wrong shape is a panic (section 6). *)
Definition NewString (a : schema.Attribute) : res t :=
  if (MultiValued a || negb (String.eqb (Type_ a) TypeString))%bool
  then Panic "invalid attribute for string property"
  else Val {| attr := a; v := None; touched := false; hash := digest a None |}.

(** Modelled from the spec: "on success stores the value, marks touched,
    recomputes hash, returns no error.  On type/format mismatch, fails
    with InvalidValue, carrying the offending value's observed type and
    the attribute's path". *)
Definition Add (p : t) (value : value) : t * res (option error) :=
  match value with
  | VString s =>
      ({| attr := attr p; v := Some s; touched := true;
          hash := digest (attr p) (Some s) |}, Val None)
  | _ =>
      (p, Val (Some (InvalidValue
                 ("value of type " ++ typeName value
                    ++ " is incompatible with attribute '"
                    ++ Path (attr p) ++ "'"))))
  end.

(** Modelled from the spec: "clears the value, marks touched if it was
    previously assigned, recomputes hash; never fails". *)
Definition Delete (p : t) : t * res (option error) :=
  ({| attr := attr p; v := None;
      touched := (touched p || bool_decide (is_Some (v p)))%bool;
      hash := digest (attr p) None |}, Val None).

Definition Raw (p : t) : value :=
  match v p with
  | Some s => VString s
  | None => VNil
  end.

Definition IsUnassigned (p : t) : bool := bool_decide (v p = None).

#[global] Instance impl : Property.impl t := {
  Property.Attribute := attr;
  Property.Raw := Raw;
  Property.IsUnassigned := IsUnassigned;
  Property.Hash := fun p => (p, Val (hash p));
  Property.Present := fun p => negb (IsUnassigned p);
  Property.Add := Add;
  Property.Delete := Delete;
  Property.Touched := touched
}.

(** The constructors for schemas whose sub-attributes are all single
    strings; any other kind is refused. *)
Definition constructors : Property.constructors t :=
  let refuse := fun _ : schema.Attribute => @Panic t "no such constructor" in
  {| Property.NewMulti := refuse;
     Property.NewString := NewString;
     Property.NewInteger := refuse;
     Property.NewDecimal := refuse;
     Property.NewBoolean := refuse;
     Property.NewDateTime := refuse;
     Property.NewReference := refuse;
     Property.NewBinary := refuse;
     Property.NewComplex := refuse |}.

End stringProperty.

(** ** Concrete schemas and properties used in the examples *)

Module sample.

Import schema.

(** The names and keys of the examples are ASCII strings, on which
    [strings.ToLower] never consults the Unicode tables
    ([gostrings.ToLower] does not call [mapToLower] there, see
    [ToLower_ascii] below): the examples evaluate to the same results
    whatever the tables are, and this instance only closes their
    terms. *)
Definition tables : UnicodeTables := {| mapToLower := fun s => s |}.
#[local] Existing Instance tables.

Definition givenName : Attribute :=
  {| Name := "givenName"; Type_ := TypeString; MultiValued := false;
     SubAttributes := []; IsIdentity := false; Path := "name.givenName" |}.

Definition familyName : Attribute :=
  {| Name := "familyName"; Type_ := TypeString; MultiValued := false;
     SubAttributes := []; IsIdentity := false; Path := "name.familyName" |}.

(** The attribute [name] of section 8 of the specification. *)
Definition name : Attribute :=
  {| Name := "name"; Type_ := TypeComplex; MultiValued := false;
     SubAttributes := [givenName; familyName]; IsIdentity := false;
     Path := "name" |}.

Definition value_ : Attribute :=
  {| Name := "value"; Type_ := TypeString; MultiValued := false;
     SubAttributes := []; IsIdentity := true; Path := "members.value" |}.

Definition display : Attribute :=
  {| Name := "display"; Type_ := TypeString; MultiValued := false;
     SubAttributes := []; IsIdentity := false; Path := "members.display" |}.

(** A group member: [value] is the identity sub-attribute. *)
Definition member : Attribute :=
  {| Name := "members"; Type_ := TypeComplex; MultiValued := false;
     SubAttributes := [value_; display]; IsIdentity := false;
     Path := "members" |}.

Definition unwrap {A : Type} (d : A) (r : res A) : A :=
  match r with
  | Val a => a
  | Panic _ => d
  end.

Definition nothing : prop.complexProperty stringProperty.t :=
  {| prop.attr := name; prop.subProps := []; prop.nameIndex := ∅;
     prop.hash := 0 |}.

(** [NewComplex(name)] and [NewComplex(member)]. *)
Definition newName : prop.complexProperty stringProperty.t :=
  unwrap nothing (prop.NewComplex stringProperty.constructors name).

Definition newMember : prop.complexProperty stringProperty.t :=
  unwrap nothing (prop.NewComplex stringProperty.constructors member).

(** [NewComplexOf(name, {"givenName": "Ada"})]. *)
Definition ada : prop.complexProperty stringProperty.t :=
  unwrap nothing
    (prop.NewComplexOf stringProperty.constructors name
       (VMap [("givenName", VString "Ada")])).

(** A complex attribute inside a complex attribute, which [NewComplex]
    builds by calling itself. *)
Definition displayName : Attribute :=
  {| Name := "displayName"; Type_ := TypeString; MultiValued := false;
     SubAttributes := []; IsIdentity := false;
     Path := "enterprise.manager.displayName" |}.

Definition manager : Attribute :=
  {| Name := "manager"; Type_ := TypeComplex; MultiValued := false;
     SubAttributes := [displayName]; IsIdentity := false;
     Path := "enterprise.manager" |}.

Definition enterprise : Attribute :=
  {| Name := "enterprise"; Type_ := TypeComplex; MultiValued := false;
     SubAttributes := [manager]; IsIdentity := false; Path := "enterprise" |}.

Definition nested
  : Property.constructors (prop.complexProperty stringProperty.t) :=
  let refuse :=
    fun _ : schema.Attribute =>
      @Panic (prop.complexProperty stringProperty.t) "no such constructor" in
  {| Property.NewMulti := refuse;
     Property.NewString := refuse;
     Property.NewInteger := refuse;
     Property.NewDecimal := refuse;
     Property.NewBoolean := refuse;
     Property.NewDateTime := refuse;
     Property.NewReference := refuse;
     Property.NewBinary := refuse;
     Property.NewComplex := prop.NewComplex stringProperty.constructors |}.

(** [NewComplex(enterprise)]. *)
Definition newEnterprise
  : prop.complexProperty (prop.complexProperty stringProperty.t) :=
  unwrap {| prop.attr := enterprise; prop.subProps := [];
            prop.nameIndex := ∅; prop.hash := 0 |}
    (prop.NewComplex nested enterprise).

(** A complex attribute without sub-attributes. *)
Definition meta : Attribute :=
  {| Name := "meta"; Type_ := TypeComplex; MultiValued := false;
     SubAttributes := []; IsIdentity := false; Path := "meta" |}.

Definition newMeta : prop.complexProperty stringProperty.t :=
  unwrap nothing (prop.NewComplex stringProperty.constructors meta).

(** A visitor for [ForEachChild] that counts the children it sees and
    breaks off at index 1. *)
Definition countUntilSecond (i : nat) (c : stringProperty.t) (seen : nat)
  : (stringProperty.t * nat) * res (option error) :=
  if Nat.eqb i 1 then ((c, seen), Val (Some (Internal "stop")))
  else ((c, S seen), Val None).

(** An [Equals] for the examples: attributes of the same name and
    path. *)
Definition sameNameAndPath (a b : Attribute) : bool :=
  (String.eqb (Name a) (Name b) && String.eqb (Path a) (Path b))%bool.

(** The store with one multi-valued, required attribute at address 1. *)
Definition emails : core.Attribute :=
  {| core.Name := "emails"; core.Description := "Email addresses";
     core.Type_ := "complex";
     core.SubAttributes := core.mkSlice (Some 7%positive) 3 4;
     core.CanonicalValues := core.mkSlice None 0 0;
     core.MultiValued := true; core.Required := true;
     core.CaseExact := false; core.Mutability := "readWrite";
     core.Returned := "default"; core.Uniqueness := "none";
     core.ReferenceTypes := core.mkSlice None 0 0;
     core.Metadata := Some 9%positive |}.

Definition store : core.heap := {[ 1%positive := emails ]}.

(** An attribute as a schema file may leave it: only the name and the
    mutability are given. *)
Definition userName : core.Attribute :=
  {| core.Name := "userName"; core.Description := "";
     core.Type_ := "";
     core.SubAttributes := core.mkSlice None 0 0;
     core.CanonicalValues := core.mkSlice None 0 0;
     core.MultiValued := false; core.Required := true;
     core.CaseExact := false; core.Mutability := "immutable";
     core.Returned := ""; core.Uniqueness := "";
     core.ReferenceTypes := core.mkSlice None 0 0;
     core.Metadata := None |}.

Definition rawStore : core.heap :=
  {[ 1%positive := emails; 2%positive := userName ]}.

End sample.

(** ** The wording of the specification *)

Module described.

Import schema.

Section children.

Context {U : UnicodeTables} {T : Type} `{Property.impl T}.

(** Section 4.3, hash algorithm, step 2: with [hasIdentity], a child whose
    attribute is not flagged identity is skipped entirely. *)
Definition skipped (hasIdentity : bool) (child : T) : bool :=
  (hasIdentity && negb (IsIdentity (Property.Attribute child)))%bool.

(** The value the child's own [Hash()] returns. *)
Definition hashValue (child : T) : Z :=
  match (Property.Hash child).2 with
  | Val sum => sum
  | Panic _ => 0%Z
  end.

(** Step 3: the bytes a child feeds into the stream: its attribute's name
    as it is spelled, then, only if the child is not unassigned, its own
    hash as 8 bytes, least significant first. *)
Definition hashInput (hasIdentity : bool) (child : T) : list Z :=
  if skipped hasIdentity child then []
  else
    (bytesOf (Name (Property.Attribute child))
       ++ (if Property.IsUnassigned child then []
           else fnv.PutUint64 (hashValue child)))%list.

(** The child after the pass: asked for its hash exactly when it is
    neither skipped nor unassigned. *)
Definition hashed (hasIdentity : bool) (child : T) : T :=
  if (skipped hasIdentity child || Property.IsUnassigned child)%bool
  then child
  else (Property.Hash child).1.

(** The child's [Hash()], where the pass calls it, returns. *)
Definition hashReturns (hasIdentity : bool) (child : T) : Prop :=
  skipped hasIdentity child = false ->
  Property.IsUnassigned child = false ->
  exists sum, (Property.Hash child).2 = Val sum.

(** A child goes by a key when the two names agree up to case. *)
Definition goesBy (child : T) (k : string) : bool :=
  String.eqb (ToLower k) (ToLower (Name (Property.Attribute child))).

(** The index that the construction builds over children [cs] numbered
    from [i]: every lower-cased name leads to the last child bearing it. *)
Fixpoint indexFrom (i : nat) (cs : list T) (idx : gmap string nat)
  : gmap string nat :=
  match cs with
  | [] => idx
  | c :: rest =>
      indexFrom (S i) rest
        (<[ToLower (Name (Property.Attribute c)) := i]> idx)
  end.

(** The child that a key resolves to among [cs], numbered from [i]: the
    last one that goes by the key. *)
Fixpoint resolveFrom (i : nat) (cs : list T) (k : string) : option nat :=
  match cs with
  | [] => None
  | c :: rest =>
      match resolveFrom (S i) rest k with
      | Some j => Some j
      | None => if goesBy c k then Some i else None
      end
  end.

(** The invariant of section 3: the name index mirrors the children. *)
Definition wellIndexed (p : prop.complexProperty T) : Prop :=
  prop.nameIndex p = indexFrom 0 (prop.subProps p) ∅.

(** No two children go by the same name ("the schema is assumed
    well-formed"). *)
Definition distinctNames (p : prop.complexProperty T) : Prop :=
  NoDup (map (fun c => ToLower (Name (Property.Attribute c)))
           (prop.subProps p)).



(** The last child whose attribute bears exactly the name [n]. *)
Fixpoint lastNamed (n : string) (cs : list T) : option T :=
  match cs with
  | [] => None
  | c :: rest =>
      match lastNamed n rest with
      | Some x => Some x
      | None =>
          if String.eqb (Name (Property.Attribute c)) n then Some c else None
      end
  end.

(** One turn of the loop of [Add]: the entry [(k, v)]. *)
Definition addEntry (k : string) (v : value)
  : prop.M (prop.complexProperty T) (option error) :=
  fun p =>
    match prop.nameIndex p !! ToLower k with
    | None => (p, Val None)
    | Some i => prop.onChild i (fun c => Property.Add c v) p
    end.

(** The round trip of section 8 compares the value given to [Add] with
    the one [Raw()] returns "under the protocol's equality".  For
    mappings that equality is taken as follows: keys are compared up to
    case; an entry that carries nothing stands for no entry; the values
    of the entries are compared by the equality of the children's
    types. *)





End children.

End described.

(** ** The property kinds together *)

Module kinds.

Section kinds.

Context {U : UnicodeTables} {T : Type} `{Property.impl T}.

(** Modelled from the spec: [Replace] of the leaf and the multi-valued
    kinds, whose source files are missing; [T] is their implementation
    of the interface.  Section 8: "Replace(nil) on any property kind is
    a no-op returning no error and leaving the existing value unchanged".
    Section 4.2, leaf: "equivalent to Delete() followed by Add(value),
    but must roll back to the prior unassigned state and surface the
    original error if either step fails".  Section 4.4, multi-valued:
    "clears all elements, then performs Add". *)
Definition describedReplace (c : T) (value : value)
  : T * res (option error) :=
  match value with
  | VNil => (c, Val None)
  | _ =>
      match Property.Delete c with
      | (c1, Val None) => Property.Add c1 value
      | (c1, failed) => (c1, failed)
      end
  end.

(** Modelled from the spec: the closed variant of sections 3 and 9,
    "polymorphic over {Leaf, Complex, Multi} variants"; the factory that
    builds it is missing.  The complex kind is the one of the source. *)
Inductive property : Type :=
| Leaf (c : T)
| Complex (p : prop.complexProperty T)
| Multi (c : T).

(** [Replace] on a property of any kind: the method of its kind. *)
Definition Replace (x : property) (value : value)
  : property * res (option error) :=
  match x with
  | Leaf c => let (c', r) := describedReplace c value in (Leaf c', r)
  | Complex p => let (p', r) := prop.Replace value p in (Complex p', r)
  | Multi c => let (c', r) := describedReplace c value in (Multi c', r)
  end.

End kinds.

Arguments property T : clear implicits.

End kinds.

(** * Properties *)

(** ** The hash functions of the Go library *)

Example fnv_empty : fnv.sum64a [] = 0xcbf29ce484222325%Z.
Proof. reflexivity. Qed.

Example fnv_a : fnv.sum64a (bytesOf "a") = 0xaf63dc4c8601ec8c%Z.
Proof. reflexivity. Qed.

Example fnv_foobar : fnv.sum64a (bytesOf "foobar") = 0x85944171f73967e8%Z.
Proof. reflexivity. Qed.

Example put_uint64 :
  fnv.PutUint64 0x0102030405060708 = [8; 7; 6; 5; 4; 3; 2; 1]%Z.
Proof. reflexivity. Qed.

Example to_lower (U : UnicodeTables) : ToLower "givenName" = "givenname".
Proof. reflexivity. Qed.

(** Writing in pieces is writing the concatenation: the stream keeps no
    more than the running state. *)
Lemma Write_app (h : Z) (a b : list Z) :
  (fnv.Write (fnv.Write h a).1 b).1 = (fnv.Write h (a ++ b)%list).1.
Proof. unfold fnv.Write; simpl. by rewrite fold_left_app. Qed.

(** ** Derived attributes *)

Module core_facts.

Import core.

Lemma new_fresh (a : Attribute) (h : heap) :
  let l := fresh (dom h) in
  h !! l = None /\ <[l := a]> h !! l = Some a /\ preserved h (<[l := a]> h).
Proof.
  intros l.
  assert (Hf : h !! l = None) by (apply not_elem_of_dom, is_fresh).
  split; [exact Hf|]. split; [apply lookup_insert_eq|].
  intros k b Hk. rewrite lookup_insert_ne; [exact Hk|].
  intros E. rewrite E in Hf. congruence.
Qed.

(** C9.  [ToSingleValued] and [ToOptional] return nil for nil.  For an
    attribute whose flag ([MultiValued], respectively [Required]) is
    already false they return the very pointer they were given and leave
    the store as it is.  Otherwise they return the address of a new
    object, which did not exist before, whose flag is false and whose
    other fields are those of the original, the other flag included; the
    sub-attribute slice and the metadata pointer are the original's, so
    both are shared; and every object of the old store, the receiver among
    them, is still there unchanged. *)
Theorem derived_forms_share_and_preserve (h : heap) :
  (ToSingleValued None h = Some (h, None)
   /\ ToOptional None h = Some (h, None))
  /\ forall (l : loc) (a : Attribute),
      h !! l = Some a ->
      (exists h1 r1,
          ToSingleValued (Some l) h = Some (h1, Some r1)
          /\ preserved h h1
          /\ (MultiValued a = false -> r1 = l /\ h1 = h)
          /\ (MultiValued a = true ->
              h !! r1 = None
              /\ exists b, h1 !! r1 = Some b /\ MultiValued b = false
                           /\ Required b = Required a
                           /\ sameOtherFields a b))
      /\ (exists h2 r2,
          ToOptional (Some l) h = Some (h2, Some r2)
          /\ preserved h h2
          /\ (Required a = false -> r2 = l /\ h2 = h)
          /\ (Required a = true ->
              h !! r2 = None
              /\ exists b, h2 !! r2 = Some b /\ Required b = false
                           /\ MultiValued b = MultiValued a
                           /\ sameOtherFields a b)).
Proof.
  split; [done|]. intros l a Hl. split.
  - unfold ToSingleValued, deref. rewrite Hl; simpl.
    destruct (MultiValued a) eqn:Hm; simpl.
    + match goal with |- context [<[_ := ?x]> h] =>
        destruct (new_fresh x h) as (Hnone & Hsome & Hpres) end.
      eexists _, _. split; [reflexivity|]. split; [exact Hpres|].
      split; [done|]. intros _. split; [exact Hnone|].
      eexists; split; [exact Hsome|]. by repeat split.
    + exists h, l. repeat split; try done. by intros k b.
  - unfold ToOptional, deref. rewrite Hl; simpl.
    destruct (Required a) eqn:Hm; simpl.
    + match goal with |- context [<[_ := ?x]> h] =>
        destruct (new_fresh x h) as (Hnone & Hsome & Hpres) end.
      eexists _, _. split; [reflexivity|]. split; [exact Hpres|].
      split; [done|]. intros _. split; [exact Hnone|].
      eexists; split; [exact Hsome|]. by repeat split.
    + exists h, l. repeat split; try done. by intros k b.
Qed.

Lemma derived_forms_witness :
  sample.store !! 1%positive = Some sample.emails
  /\ exists h1 r1,
      ToSingleValued (Some 1%positive) sample.store = Some (h1, Some r1)
      /\ preserved sample.store h1.
Proof.
  split; [reflexivity|].
  destruct (proj2 (derived_forms_share_and_preserve sample.store)
              1%positive sample.emails eq_refl)
    as [(h1 & r1 & Hcall & Hpres & _) _].
  exists h1, r1. split; [exact Hcall | exact Hpres].
Defined.

End core_facts.

(** ** The complex property *)

Module prop_facts.

Import schema prop described.

Section complex.

Context {U : UnicodeTables} {T : Type} `{Property.impl T}.

Implicit Types (p q : complexProperty T) (v : value) (cs : list T).

Local Opaque fnv.step fnv.PutUint64.

(** *** The structural hash *)

Lemma hashChild_returns (hasIdentity : bool) (i : nat) (c : T) (h : Z) :
  hashReturns hasIdentity c ->
  hashChild hasIdentity i c h
  = ((hashed hasIdentity c,
      fold_left fnv.step (hashInput hasIdentity c) h), Val None).
Proof.
  intros Hret. unfold hashChild, hashed, hashInput, hashReturns in *.
  fold (skipped hasIdentity c) in *.
  destruct (skipped hasIdentity c) eqn:Hs; [done|]. simpl.
  destruct (Property.IsUnassigned c) eqn:Hu; simpl.
  - by rewrite app_nil_r.
  - destruct (Hret eq_refl eq_refl) as [sum Hsum].
    unfold hashValue. destruct (Property.Hash c) as [c' r]. simpl in *.
    subst r. by rewrite fold_left_app.
Qed.

Lemma rangeSubProps_hashChild (hasIdentity : bool) cs :
  forall (i : nat) (h : Z),
    Forall (hashReturns hasIdentity) cs ->
    rangeSubProps (hashChild hasIdentity) i cs h
    = ((map (hashed hasIdentity) cs,
        fold_left fnv.step (concat (map (hashInput hasIdentity) cs)) h),
       Val None).
Proof.
  induction cs as [|c rest IH]; intros i h Hall; [done|].
  inversion Hall as [|? ? Hc Hrest]; subst. simpl.
  rewrite (hashChild_returns _ _ _ _ Hc), (IH _ _ Hrest).
  by rewrite fold_left_app.
Qed.



(** C1.  When the hash of every child that is asked for it returns,
    [computeHash] returns, and the digest it stores is the 64-bit FNV-1a
    sum of one byte string: the inputs of the children, concatenated in
    the order of [subProps].  The input of a child is empty if some
    sub-attribute is flagged identity and the child's attribute is not;
    otherwise it is the bytes of the attribute name followed, only for a
    child that is not unassigned, by the 8 little-endian bytes of the
    child's [Hash()].  Nothing but the digest and the children's own
    caches changes. *)
Theorem computeHash_streams_children p :
  let hasIdentity := HasIdentitySubAttributes (attr p) in
  Forall (hashReturns hasIdentity) (subProps p) ->
  computeHash p
  = ({| attr := attr p;
        subProps := map (hashed hasIdentity) (subProps p);
        nameIndex := nameIndex p;
        hash := fnv.sum64a
                  (concat (map (hashInput hasIdentity) (subProps p))) |},
     Val tt).
Proof.
  intros hasIdentity Hall. unfold computeHash, ForEachChild.
  fold hasIdentity. by rewrite (rangeSubProps_hashChild _ _ _ _ Hall).
Qed.

(** *** The parts that no method changes *)

Lemma computeHash_frame p :
  attr (computeHash p).1 = attr p
  /\ nameIndex (computeHash p).1 = nameIndex p.
Proof.
  unfold computeHash, ForEachChild.
  destruct (rangeSubProps _ 0 (subProps p) fnv.New64a) as [[cs h] [[e|]|r]];
    done.
Qed.

Lemma onChild_frame {A : Type} (i : nat) (call : T -> T * res A) p :
  attr (onChild i call p).1 = attr p
  /\ nameIndex (onChild i call p).1 = nameIndex p.
Proof.
  unfold onChild. destruct (subProps p !! i) as [c|]; [|done].
  by destruct (call c).
Qed.

(** One turn of the loop of [Add]. *)
Lemma addEntries_cons (k : string) v (rest : list (string * value)) p :
  addEntries ((k, v) :: rest) p
  = match nameIndex p !! ToLower k with
    | None => addEntries rest p
    | Some i =>
        match onChild i (fun c => Property.Add c v) p with
        | (p1, Val None) => addEntries rest p1
        | (p1, Val (Some e)) => (p1, Val (Some e))
        | (p1, Panic r) => (p1, Panic r)
        end
    end.
Proof.
  simpl. unfold bind, get.
  destruct (nameIndex p !! ToLower k) as [i|]; [|done].
  by destruct (onChild i _ p) as [p1 [[e|]|r]].
Qed.

Lemma addEntries_frame (m : list (string * value)) :
  forall p,
    attr (addEntries m p).1 = attr p
    /\ nameIndex (addEntries m p).1 = nameIndex p.
Proof.
  induction m as [|[k v] rest IH]; intros p; [done|].
  rewrite addEntries_cons.
  destruct (nameIndex p !! ToLower k) as [i|]; [|apply IH].
  pose proof (onChild_frame i (fun c => Property.Add c v) p) as [Ha Hn].
  destruct (onChild i _ p) as [p1 [[e|]|r]]; simpl in *; try done.
  destruct (IH p1) as [Ha' Hn']. split; congruence.
Qed.

Lemma Add_frame v p :
  attr (Add v p).1 = attr p /\ nameIndex (Add v p).1 = nameIndex p.
Proof.
  destruct v; try done. unfold Add, bind.
  pose proof (addEntries_frame m p) as [Ha Hn].
  destruct (addEntries m p) as [p1 [[e|]|r]]; simpl in *; try done.
  pose proof (computeHash_frame p1) as [Ha' Hn'].
  destruct (computeHash p1) as [p2 [[]|r]]; simpl in *; split; congruence.
Qed.

Lemma Delete_frame p :
  attr (Delete p).1 = attr p /\ nameIndex (Delete p).1 = nameIndex p.
Proof.
  unfold Delete.
  destruct (rangeSubProps _ 0 (subProps p) ()) as [[cs u] [[e|]|r]];
    try done.
  unfold bind.
  pose proof (computeHash_frame (withSubProps cs p)) as [Ha Hn].
  by destruct (computeHash (withSubProps cs p)) as [p2 [[]|r]].
Qed.

(** *** Comparison *)

(** C2.  [p.Matches(q)] returns true exactly when the attribute of [p]
    equals that of [q] by [Equals], the two have as many children, and
    [p.Hash()] and [q.Hash()] return the same number. *)
Theorem Matches_true_iff (Equals : schema.Attribute -> schema.Attribute -> bool)
    p q :
  (Matches Equals p q).2 = Val true
  <-> Equals (attr p) (attr q) = true
      /\ CountChildren p = CountChildren q
      /\ exists sum, (Hash p).2 = Val sum /\ (Hash q).2 = Val sum.
Proof.
  unfold Matches, Attribute.
  destruct (Equals (attr p) (attr q)); simpl;
    [|split; [discriminate | by intros [? _]]].
  destruct (Nat.eqb_spec (CountChildren p) (CountChildren q)) as [Hn|Hn];
    simpl; [|split; [discriminate | by intros (_ & ? & _)]].
  destruct (Hash p) as [p1 [hp|r]]; simpl;
    [|split; [discriminate | by intros (_ & _ & ? & ? & _)]].
  destruct (Hash q) as [q1 [hq|r]]; simpl;
    [|split; [discriminate | by intros (_ & _ & ? & _ & ?)]].
  split.
  - intros [= Heq%Z.eqb_eq]. subst. eauto.
  - intros (_ & _ & sum & [= ->] & [= ->]). by rewrite Z.eqb_refl.
Qed.

(** C7.  Each of the six relational operators returns the verdict false
    together with the internal error "incompatible operation", whatever
    the property and the argument. *)
Theorem relational_operators_incompatible p v (s : string) :
  let failure := (false, Some (Internal "incompatible operation")) in
  EqualsTo p v = failure /\ StartsWith p s = failure
  /\ EndsWith p s = failure /\ Contains p s = failure
  /\ GreaterThan p v = failure /\ LessThan p v = failure.
Proof. by repeat split. Qed.

(** *** Add and Replace on nil and on values that are not mappings *)

(** C10.  [Add(nil)] returns no error and the property is the one it was:
    the same children, the same cached hash. *)
Theorem Add_nil_changes_nothing p : Add VNil p = (p, Val None).
Proof. reflexivity. Qed.

(** C8.  On a property of any kind, [Replace(nil)] returns no error and
    the property is the one it was: for the complex kind by the guard
    that opens [Replace] in the source, the same children and the same
    cached hash; for the leaf and the multi-valued kinds as the
    specification describes them. *)
Theorem Replace_nil_changes_nothing (x : kinds.property T) :
  kinds.Replace x VNil = (x, Val None).
Proof. by destruct x. Qed.

Lemma Add_refuses p v :
  v <> VNil ->
  (forall m, v <> VMap m) ->
  Add v p = (p, Val (Some (errIncompatibleValue p v))).
Proof.
  intros Hnil Hmap. destruct v; try done. by destruct (Hmap m).
Qed.

(** C5, amended.  For a value that is neither nil nor a
    [map[string]interface{}], [Add] returns the InvalidValue error whose
    message carries the value's dynamic type and the path of this
    property's attribute, and the property is the one it was. *)
Theorem Add_rejects_non_mapping p v :
  v <> VNil ->
  (forall m, v <> VMap m) ->
  Add v p
  = (p,
     Val (Some (InvalidValue
                  ("value of type " ++ typeName v
                     ++ " is incompatible with attribute '"
                     ++ Path (attr p) ++ "'")))).
Proof. apply Add_refuses. Qed.

(** *** The name index *)

Lemma indexFrom_lookup cs (k : string) :
  forall (i : nat) (idx : gmap string nat),
    indexFrom i cs idx !! ToLower k
    = match resolveFrom i cs k with
      | Some j => Some j
      | None => idx !! ToLower k
      end.
Proof.
  induction cs as [|c rest IH]; intros i idx; [done|].
  simpl. rewrite IH. destruct (resolveFrom (S i) rest k); [done|].
  unfold goesBy.
  destruct (String.eqb_spec (ToLower k)
              (ToLower (Name (Property.Attribute c)))) as [E|E].
  - rewrite E. apply lookup_insert_eq.
  - by rewrite lookup_insert_ne.
Qed.

Lemma resolveFrom_None cs (k : string) (i : nat) :
  Forall (fun c => goesBy c k = false) cs -> resolveFrom i cs k = None.
Proof.
  intros Hall. revert i.
  induction Hall as [|c rest Hc _ IH]; intros i; [done|].
  simpl. by rewrite IH, Hc.
Qed.

Lemma resolveFrom_last cs (k : string) :
  forall (i n : nat) (c : T),
    cs !! n = Some c ->
    goesBy c k = true ->
    (forall j c', n < j -> cs !! j = Some c' -> goesBy c' k = false) ->
    resolveFrom i cs k = Some (i + n).
Proof.
  induction cs as [|a rest IH]; intros i n c Hn Hc Hlater; [done|].
  destruct n as [|n]; simpl in *.
  - injection Hn as ->. rewrite resolveFrom_None, Hc.
    + f_equal. lia.
    + apply Forall_lookup. intros j c' Hj.
      apply (Hlater (S j) c'); [lia | done].
  - rewrite (IH (S i) n c Hn Hc).
    + f_equal. lia.
    + intros j c' Hlt Hj. apply (Hlater (S j) c'); [lia | done].
Qed.

Lemma indexFrom_ext cs cs' :
  map Property.Attribute cs = map Property.Attribute cs' ->
  forall (i : nat) (idx : gmap string nat),
    indexFrom i cs idx = indexFrom i cs' idx.
Proof.
  revert cs'. induction cs as [|c rest IH]; intros [|c' rest'] Heq i idx;
    try done.
  simpl in *. injection Heq as Hc Hrest. rewrite Hc. by apply IH.
Qed.

Lemma wellIndexed_ext p q :
  nameIndex q = nameIndex p ->
  map Property.Attribute (subProps q) = map Property.Attribute (subProps p) ->
  wellIndexed p -> wellIndexed q.
Proof.
  unfold wellIndexed. intros -> Hattrs ->. by apply indexFrom_ext.
Qed.

Lemma insert_keeps_attributes cs (i : nat) (c c' : T) :
  cs !! i = Some c ->
  Property.Attribute c' = Property.Attribute c ->
  map Property.Attribute (<[i := c']> cs) = map Property.Attribute cs.
Proof.
  intros Hi Hattr. rewrite list_fmap_insert, Hattr.
  apply list_insert_id. by rewrite list_lookup_fmap, Hi.
Qed.

(** *** Add on a mapping *)

Lemma Add_nothing_left p :
  Add (VMap []) p
  = ((computeHash p).1,
     match (computeHash p).2 with
     | Val _ => Val None
     | Panic r => Panic r
     end).
Proof.
  unfold Add, bind; simpl. by destruct (computeHash p) as [p1 [[]|r]].
Qed.

Lemma Add_cons (k : string) v (m : list (string * value)) p :
  Add (VMap ((k, v) :: m)) p
  = match nameIndex p !! ToLower k with
    | None => Add (VMap m) p
    | Some i =>
        match onChild i (fun c => Property.Add c v) p with
        | (p1, Val None) => Add (VMap m) p1
        | (p1, Val (Some e)) => (p1, Val (Some e))
        | (p1, Panic r) => (p1, Panic r)
        end
    end.
Proof.
  unfold Add, bind. rewrite addEntries_cons.
  destruct (nameIndex p !! ToLower k) as [i|]; [|done].
  by destruct (onChild i _ p) as [p1 [[e|]|r]].
Qed.

(** C6.  On a property whose name index mirrors its children, [Add] of a
    mapping treats the entry [(k, v)] it visits first as follows.  If no
    child goes by [k] (names compared after lower-casing both), the entry
    is dropped: the call is the call on the remaining entries.  If child
    [i] is the (last) one going by [k], the child's own [Add] gets [v];
    when that returns no error the call goes on with the remaining
    entries on the property with the changed child, whose index is again
    in order if the child kept its attribute; an error or a panic of the
    child ends the call with it.  With no entry left the hash is computed
    and no error is returned, so a mapping of unknown keys alone is the
    empty mapping. *)
Theorem Add_resolves_keys_case_insensitively p (k : string) v
    (m : list (string * value)) :
  wellIndexed p ->
  (Forall (fun c => goesBy c k = false) (subProps p) ->
   Add (VMap ((k, v) :: m)) p = Add (VMap m) p)
  /\ (forall (i : nat) (c : T),
        subProps p !! i = Some c ->
        goesBy c k = true ->
        (forall j c', i < j -> subProps p !! j = Some c' ->
                      goesBy c' k = false) ->
        let p1 := withSubProps (<[i := (Property.Add c v).1]> (subProps p)) p in
        Add (VMap ((k, v) :: m)) p
        = match (Property.Add c v).2 with
          | Val None => Add (VMap m) p1
          | Val (Some e) => (p1, Val (Some e))
          | Panic r => (p1, Panic r)
          end
        /\ (Property.Attribute (Property.Add c v).1 = Property.Attribute c ->
            wellIndexed p1))
  /\ (Forall (fun kv : string * value =>
                Forall (fun c => goesBy c kv.1 = false) (subProps p)) m ->
      Add (VMap m) p = Add (VMap []) p)
  /\ Add (VMap []) p
     = ((computeHash p).1,
        match (computeHash p).2 with
        | Val _ => Val None
        | Panic r => Panic r
        end).
Proof.
  intros Hwf.
  assert (Hlookup : forall k', nameIndex p !! ToLower k'
                               = resolveFrom 0 (subProps p) k').
  { intros k'. rewrite Hwf, indexFrom_lookup.
    destruct (resolveFrom 0 (subProps p) k'); [done | apply lookup_empty]. }
  assert (Hdrop : forall k' v' m',
             Forall (fun c => goesBy c k' = false) (subProps p) ->
             Add (VMap ((k', v') :: m')) p = Add (VMap m') p).
  { intros k' v' m' Hnone.
    by rewrite Add_cons, Hlookup, (resolveFrom_None _ _ _ Hnone). }
  split; [apply Hdrop|]. split; [|split; [|apply Add_nothing_left]].
  - intros i c Hi Hc Hlater p1. split.
    + rewrite Add_cons, Hlookup, (resolveFrom_last _ _ 0 i c Hi Hc Hlater).
      simpl. unfold onChild. rewrite Hi. subst p1.
      by destruct (Property.Add c v) as [c' [[e|]|r]].
    + intros Hattr. apply (wellIndexed_ext p); [done| |done].
      by apply (insert_keeps_attributes _ _ c).
  - intros Hall. induction Hall as [|[k' v'] m' Hk _ IH]; [done|].
    by rewrite Hdrop.
Qed.

(** *** Delete and Replace *)

Lemma hashChild_hashed (hasIdentity : bool) (i : nat) (c : T) (h : Z) :
  (hashChild hasIdentity i c h).1.1 = hashed hasIdentity c.
Proof.
  unfold hashChild, hashed. fold (skipped hasIdentity c).
  destruct (skipped hasIdentity c); simpl; [done|].
  destruct (Property.IsUnassigned c); simpl; [done|].
  by destruct (Property.Hash c) as [c' [sum|r]].
Qed.

Lemma rangeSubProps_hashChild_done (hasIdentity : bool) cs :
  forall (i : nat) (h : Z) cs' (h' : Z),
    rangeSubProps (hashChild hasIdentity) i cs h = ((cs', h'), Val None) ->
    cs' = map (hashed hasIdentity) cs.
Proof.
  induction cs as [|c rest IH]; intros i h cs' h' Hrun.
  - by injection Hrun as <- _.
  - simpl in Hrun. pose proof (hashChild_hashed hasIdentity i c h) as Hc.
    destruct (hashChild hasIdentity i c h) as [[c1 h1] [[e|]|r]];
      simpl in Hc; try done.
    destruct (rangeSubProps (hashChild hasIdentity) (S i) rest h1)
      as [[rest1 h2] r1] eqn:Hrest.
    injection Hrun as <- _ ->. simpl. f_equal; [done|]. by eapply IH.
Qed.

Lemma computeHash_children p p' :
  computeHash p = (p', Val tt) ->
  subProps p'
  = map (hashed (HasIdentitySubAttributes (attr p))) (subProps p).
Proof.
  unfold computeHash, ForEachChild.
  destruct (rangeSubProps _ 0 (subProps p) fnv.New64a)
    as [[cs h] [[e|]|r]] eqn:Hrun; try done.
  intros [= <-]. simpl. by eapply rangeSubProps_hashChild_done.
Qed.

Lemma rangeSubProps_Delete_done cs :
  forall (i : nat) cs' (u : unit),
    rangeSubProps
      (fun _ subProp (_ : unit) =>
         match Property.Delete subProp with
         | (subProp, r) => ((subProp, tt), r)
         end) i cs tt
    = ((cs', u), Val None) ->
    cs' = map (fun c => (Property.Delete c).1) cs.
Proof.
  induction cs as [|c rest IH]; intros i cs' u Hrun.
  - by injection Hrun as <- _.
  - simpl in Hrun.
    destruct (Property.Delete c) as [c1 [[e|]|r]] eqn:Hd; try done.
    match type of Hrun with context [rangeSubProps ?f ?j rest tt] =>
      destruct (rangeSubProps f j rest tt) as [[rest1 u1] r1] eqn:Hrest end.
    injection Hrun as <- _ ->. simpl. rewrite Hd. simpl.
    f_equal. destruct u1. by eapply IH.
Qed.

(** After a [Delete] that returned no error every child is what its own
    [Delete] made of it, up to the hash that was then read from it. *)
Lemma Delete_children p :
  (Delete p).2 = Val None ->
  subProps (Delete p).1
  = map (fun c =>
           hashed (HasIdentitySubAttributes (attr p)) (Property.Delete c).1)
      (subProps p).
Proof.
  unfold Delete.
  match goal with |- context [rangeSubProps ?f 0 (subProps p) tt] =>
    destruct (rangeSubProps f 0 (subProps p) tt)
      as [[cs u] [[e|]|r]] eqn:Hrun end; try done.
  unfold bind.
  destruct (computeHash (withSubProps cs p)) as [p1 [[]|r]] eqn:Hhash;
    simpl; [|done].
  intros _. rewrite (computeHash_children _ _ Hhash). simpl.
  rewrite (rangeSubProps_Delete_done _ _ _ _ Hrun). by rewrite map_map.
Qed.

Lemma Replace_returns p v : exists r, (Replace v p).2 = Val r.
Proof.
  destruct v; try (by eexists);
    unfold Replace, deferRecover;
    match goal with |- context [bind ?a ?b p] =>
      destruct (bind a b p) as [p' [r|r]] end; by eexists.
Qed.

(** C4, amended.  [Replace] of a value other than nil never panics and
    ends in one of these ways.  If [Delete] or [Add] panics, it returns
    the InvalidValue error of this property (the value's type, this
    attribute's path).  If [Delete] or [Add] returns an error, it returns
    that same error, whichever property it names.  The property is left as
    the step that failed left it.  In particular, when [Delete] went
    through, every child is the result of its own [Delete], and for a
    value that is no mapping nothing more has happened when [Add] rejects
    the value with this property's InvalidValue. *)
Theorem Replace_failures p v :
  v <> VNil ->
  let own := errIncompatibleValue p v in
  let p1 := (Delete p).1 in
  (exists r, (Replace v p).2 = Val r)
  /\ (forall r, (Delete p).2 = Panic r -> Replace v p = (p1, Val (Some own)))
  /\ (forall e, (Delete p).2 = Val (Some e) ->
                Replace v p = (p1, Val (Some e)))
  /\ ((Delete p).2 = Val None ->
      subProps p1
      = map (fun c =>
               hashed (HasIdentitySubAttributes (attr p))
                 (Property.Delete c).1) (subProps p)
      /\ (forall r, (Add v p1).2 = Panic r ->
                    Replace v p = ((Add v p1).1, Val (Some own)))
      /\ (forall e, (Add v p1).2 = Val e ->
                    Replace v p = ((Add v p1).1, Val e))
      /\ ((forall m, v <> VMap m) -> Replace v p = (p1, Val (Some own)))).
Proof.
  intros Hnil own p1. split; [apply Replace_returns|].
  assert (Hunfold : Replace v p
                    = deferRecover
                        (bind Delete
                           (fun err => match err with
                                       | Some e => ret (Some e)
                                       | None => Add v
                                       end))
                        (fun p => Some (errIncompatibleValue p v)) p)
    by (by destruct v).
  rewrite Hunfold. unfold deferRecover, bind. subst own p1.
  pose proof (Delete_frame p) as [Hattr _].
  pose proof (Delete_children p) as Hchildren.
  destruct (Delete p) as [p1 [[e|]|r]]; simpl in *.
  - split; [done|]. split; [by intros ? [= ->]|done].
  - split; [done|]. split; [done|]. intros _. split; [by apply Hchildren|].
    pose proof (Add_frame v p1) as [Hattr' _].
    assert (Hown : errIncompatibleValue (Add v p1).1 v
                   = errIncompatibleValue p v)
      by (unfold errIncompatibleValue; congruence).
    split; [|split].
    + intros r Hr. destruct (Add v p1) as [p2 [e|r']]; simpl in *; [done|].
      by rewrite Hown.
    + intros e He. destruct (Add v p1) as [p2 [e'|r']]; simpl in *; [|done].
      by injection He as ->.
    + intros Hmap. rewrite (Add_refuses p1 v Hnil Hmap).
      unfold errIncompatibleValue. by rewrite Hattr.
  - split; [|done]. intros _ _. unfold errIncompatibleValue.
    by rewrite Hattr.
Qed.

(** *** Construction *)

Lemma addSubAttribute_panic (K : Property.constructors T)
    (subs : list schema.Attribute) (reason : string) :
  fold_left (addSubAttribute K) subs (Panic reason) = Panic reason.
Proof. by induction subs. Qed.

Lemma addSubAttribute_all (K : Property.constructors T)
    (subs : list schema.Attribute) :
  (forall sub c, newSubProperty K sub = Val c -> Property.Attribute c = sub) ->
  forall cs0 idx0 cs idx,
    fold_left (addSubAttribute K) subs (Val (cs0, idx0)) = Val (cs, idx) ->
    exists new,
      cs = (cs0 ++ new)%list
      /\ map Property.Attribute new = subs
      /\ idx = indexFrom (length cs0) new idx0.
Proof.
  intros Hbound.
  induction subs as [|sub rest IH]; intros cs0 idx0 cs idx Hrun.
  - injection Hrun as <- <-. exists []. by rewrite app_nil_r.
  - simpl in Hrun.
    destruct (newSubProperty K sub) as [c|r] eqn:Hnew;
      [|by rewrite addSubAttribute_panic in Hrun].
    apply IH in Hrun as (new & -> & Hattrs & ->).
    exists (c :: new). rewrite <- app_assoc. split; [done|].
    pose proof (Hbound _ _ Hnew) as Hc. simpl. rewrite Hc, Hattrs.
    split; [done|]. rewrite length_app. simpl.
    replace (length cs0 + 1 - 1) with (length cs0) by lia.
    by replace (length cs0 + 1) with (S (length cs0)) by lia.
Qed.

(** What [NewComplex] returns mirrors the attribute: one child per
    sub-attribute, in declaration order, the index in step, no digest
    cached yet. *)
Lemma NewComplex_mirrors_schema (K : Property.constructors T)
    (a : schema.Attribute) p :
  (forall sub c, newSubProperty K sub = Val c -> Property.Attribute c = sub) ->
  NewComplex K a = Val p ->
  attr p = a
  /\ map Property.Attribute (subProps p) = SubAttributes a
  /\ wellIndexed p
  /\ hash p = 0%Z.
Proof.
  intros Hbound. unfold NewComplex.
  destruct (negb (SingleValued a) || negb (String.eqb (Type_ a) TypeComplex));
    [done|].
  destruct (fold_left (addSubAttribute K) (SubAttributes a) (Val ([], ∅)))
    as [[cs idx]|r] eqn:Hrun; [|done].
  intros [= <-]. simpl.
  by apply (addSubAttribute_all K _ Hbound) in Hrun as (new & -> & Hattrs & ->).
Qed.

(** *** Raw *)

Lemma Raw_entries p :
  Raw p
  = VMap (fold_left
            (fun values c =>
               mapSet values (Name (Property.Attribute c)) (Property.Raw c))
            (subProps p) []).
Proof.
  unfold Raw, ForEachChild.
  assert (Hrun : forall cs (i : nat) (values : list (string * value)),
             rangeSubProps
               (fun (_ : nat) (child : T) (values : list (string * value)) =>
                  ((child,
                    mapSet values (Name (Property.Attribute child))
                      (Property.Raw child)), Val (@None error)))
               i cs values
             = ((cs,
                 fold_left
                   (fun values c =>
                      mapSet values (Name (Property.Attribute c))
                        (Property.Raw c)) cs values), Val None)).
  { induction cs as [|c rest IH]; intros i values; [done|].
    simpl. by rewrite IH. }
  by rewrite Hrun.
Qed.



(** *** Add followed by Raw *)




Lemma distinct_goesBy cs (k : string) (i j : nat) (c c' : T) :
  NoDup (map (fun c => ToLower (Name (Property.Attribute c))) cs) ->
  cs !! i = Some c -> cs !! j = Some c' ->
  goesBy c k = true -> goesBy c' k = true -> i = j.
Proof.
  unfold goesBy. intros Hnd Hi Hj Hc%String.eqb_eq Hc'%String.eqb_eq.
  eapply NoDup_lookup; [exact Hnd| |].
  - by rewrite list_lookup_fmap, Hi.
  - rewrite list_lookup_fmap, Hj. simpl. congruence.
Qed.

Lemma distinctNames_ext p q :
  map Property.Attribute (subProps q) = map Property.Attribute (subProps p) ->
  distinctNames p -> distinctNames q.
Proof.
  unfold distinctNames. intros Hattrs.
  rewrite <- (map_map Property.Attribute (fun a => ToLower (Name a))
                (subProps p)).
  rewrite <- (map_map Property.Attribute (fun a => ToLower (Name a))
                (subProps q)).
  by rewrite Hattrs.
Qed.

Section lawful_children.

Context `{!Property.lawful T}.


Lemma hashed_Attribute (hasIdentity : bool) (c : T) :
  Property.Attribute (hashed hasIdentity c) = Property.Attribute c.
Proof.
  unfold hashed.
  destruct (skipped hasIdentity c || Property.IsUnassigned c); [done|].
  apply Property.Hash_Attribute.
Qed.

Lemma hashed_Raw (hasIdentity : bool) (c : T) :
  Property.Raw (hashed hasIdentity c) = Property.Raw c.
Proof.
  unfold hashed.
  destruct (skipped hasIdentity c || Property.IsUnassigned c); [done|].
  apply Property.Hash_Raw.
Qed.











End lawful_children.

(** *** A complex property of lawful children is lawful *)

Section nesting.

Context `{!Property.lawful T}.

(** The pass over the children for the digest, however it ends, changes
    nothing that their read methods show. *)
Lemma rangeSubProps_hashChild_reads (hasIdentity : bool) cs :
  forall (i : nat) (h : Z),
    Forall2
      (fun c c' =>
         Property.Attribute c' = Property.Attribute c
         /\ Property.Raw c' = Property.Raw c
         /\ Property.IsUnassigned c' = Property.IsUnassigned c)
      cs (rangeSubProps (hashChild hasIdentity) i cs h).1.1.
Proof.
  assert (Hsame : forall cs',
             Forall2
               (fun c c' : T =>
                  Property.Attribute c' = Property.Attribute c
                  /\ Property.Raw c' = Property.Raw c
                  /\ Property.IsUnassigned c' = Property.IsUnassigned c)
               cs' cs')
    by (intros cs'; by apply Forall_Forall2_diag, Forall_forall).
  induction cs as [|c rest IH]; intros i h; [by constructor|].
  simpl. pose proof (hashChild_hashed hasIdentity i c h) as Hc.
  assert (Hread : Property.Attribute (hashed hasIdentity c)
                  = Property.Attribute c
                  /\ Property.Raw (hashed hasIdentity c) = Property.Raw c
                  /\ Property.IsUnassigned (hashed hasIdentity c)
                     = Property.IsUnassigned c).
  { split; [apply hashed_Attribute|]. split; [apply hashed_Raw|].
    unfold hashed.
    destruct (skipped hasIdentity c || Property.IsUnassigned c); [done|].
    apply Property.Hash_IsUnassigned. }
  destruct (hashChild hasIdentity i c h) as [[c1 h1] [[e|]|r]];
    simpl in Hc; subst c1; simpl; try (by constructor).
  specialize (IH (S i) h1).
  destruct (rangeSubProps (hashChild hasIdentity) (S i) rest h1)
    as [[rest1 h2] r1].
  by constructor.
Qed.

Lemma Raw_same_reads cs cs' :
  Forall2
    (fun c c' : T =>
       Property.Attribute c' = Property.Attribute c
       /\ Property.Raw c' = Property.Raw c
       /\ Property.IsUnassigned c' = Property.IsUnassigned c) cs cs' ->
  forall values : list (string * value),
    fold_left
      (fun values c =>
         mapSet values (Name (Property.Attribute c)) (Property.Raw c))
      cs' values
    = fold_left
        (fun values c =>
           mapSet values (Name (Property.Attribute c)) (Property.Raw c))
        cs values.
Proof.
  induction 1 as [|c c' rest rest' (Ha & Hr & _) _ IH]; intros values;
    [done|].
  simpl. by rewrite Ha, Hr, IH.
Qed.

Lemma IsUnassigned_same_reads cs cs' :
  Forall2
    (fun c c' : T =>
       Property.Attribute c' = Property.Attribute c
       /\ Property.Raw c' = Property.Raw c
       /\ Property.IsUnassigned c' = Property.IsUnassigned c) cs cs' ->
  forallb Property.IsUnassigned cs' = forallb Property.IsUnassigned cs.
Proof.
  induction 1 as [|c c' rest rest' (_ & _ & Hu) _ IH]; [done|].
  simpl. by rewrite Hu, IH.
Qed.

Lemma computeHash_reads p :
  Raw (computeHash p).1 = Raw p
  /\ IsUnassigned (computeHash p).1 = IsUnassigned p.
Proof.
  pose proof (rangeSubProps_hashChild_reads
                (HasIdentitySubAttributes (attr p)) (subProps p) 0
                fnv.New64a) as Hreads.
  rewrite !Raw_entries. unfold IsUnassigned, computeHash, ForEachChild.
  destruct (rangeSubProps _ 0 (subProps p) fnv.New64a) as [[cs h] [[e|]|r]];
    simpl in *;
    by rewrite (Raw_same_reads _ _ Hreads), (IsUnassigned_same_reads _ _ Hreads).
Qed.

#[global] Instance complexProperty_lawful
  : Property.lawful (complexProperty T).
Proof.
  split.
  - intros p v. apply Add_frame.
  - intros p. apply Delete_frame.
  - intros p. simpl. unfold Hash, bind, get.
    destruct (hash p =? 0)%Z; [|done].
    pose proof (computeHash_frame p) as [Ha _].
    by destruct (computeHash p) as [p1 [[]|r]].
  - intros p. simpl. unfold Hash, bind, get.
    destruct (hash p =? 0)%Z; [|done].
    pose proof (computeHash_reads p) as [Hr _].
    by destruct (computeHash p) as [p1 [[]|r]].
  - intros p. simpl. unfold Hash, bind, get.
    destruct (hash p =? 0)%Z; [|done].
    pose proof (computeHash_reads p) as [_ Hu].
    by destruct (computeHash p) as [p1 [[]|r]].
Qed.

End nesting.

End complex.

(** The examples below run on the sample schemas, whose names and keys
    are ASCII strings. *)
#[local] Existing Instance sample.tables.

(** The modelled string leaf keeps the promises of the interface. *)
#[global] Instance stringProperty_lawful : Property.lawful stringProperty.t.
Proof.
  split; try done.
  - intros c v. by destruct v.
Qed.

(** The sample properties are what the constructors return. *)
Example newName_built :
  NewComplex stringProperty.constructors sample.name = Val sample.newName
  /\ NewComplex stringProperty.constructors sample.member
     = Val sample.newMember
  /\ NewComplex sample.nested sample.enterprise = Val sample.newEnterprise
  /\ NewComplexOf stringProperty.constructors sample.name
       (VMap [("givenName", VString "Ada")]) = Val sample.ada.
Proof. vm_compute. repeat split. Qed.

(** Section 8 of the specification: the second partial update overwrites
    the family name and leaves the given name. *)
Example ada_king :
  let first := VMap [("givenName", VString "Ada");
                     ("familyName", VString "Lovelace")] in
  let second := VMap [("givenName", VString "Ada");
                      ("familyName", VString "King")] in
  Raw (Add second (Add first sample.newName).1).1
  = VMap [("givenName", VString "Ada"); ("familyName", VString "King")].
Proof. vm_compute. reflexivity. Qed.

(** With an identity sub-attribute, the digest ignores the other fields. *)
Example member_hash_ignores_display :
  let a := VMap [("value", VString "2819c223"); ("display", VString "Ada")] in
  let b := VMap [("value", VString "2819c223"); ("display", VString "A. King")] in
  let c := VMap [("value", VString "902c246b"); ("display", VString "Ada")] in
  hash (Add a sample.newMember).1 = hash (Add b sample.newMember).1
  /\ hash (Add a sample.newMember).1 <> hash (Add c sample.newMember).1.
Proof. vm_compute. split; [reflexivity | discriminate]. Qed.

Lemma computeHash_streams_children_witness :
  Forall (hashReturns (HasIdentitySubAttributes (attr sample.newMember)))
    (subProps sample.newMember)
  /\ hash (computeHash sample.newMember).1
     = fnv.sum64a (bytesOf "value").
Proof.
  assert (Hall : Forall
            (hashReturns (HasIdentitySubAttributes (attr sample.newMember)))
            (subProps sample.newMember)).
  { repeat constructor; intros _ _; eexists; reflexivity. }
  split; [exact Hall|].
  rewrite (computeHash_streams_children sample.newMember Hall).
  reflexivity.
Defined.

(** C5 as stated fails: nil is not a mapping, and [Add(nil)] returns no
    error. *)
Lemma Add_nil_is_not_rejected :
  (forall m, VNil <> VMap m)
  /\ (Add VNil sample.newName).2 = Val None
  /\ ~ (forall v : value,
          (forall m, v <> VMap m) ->
          exists e, (Add v sample.newName).2 = Val (Some e)).
Proof.
  split; [done|]. split; [reflexivity|].
  intros Hclaim. destruct (Hclaim VNil) as [e He]; [done|]. discriminate He.
Qed.

Lemma Add_rejects_non_mapping_witness :
  VInt 42 <> VNil
  /\ (forall m, VInt 42 <> VMap m)
  /\ Add (VInt 42) sample.ada
     = (sample.ada,
        Val (Some (InvalidValue
           "value of type int64 is incompatible with attribute 'name'"))).
Proof.
  assert (H1 : VInt 42 <> VNil) by discriminate.
  assert (H2 : forall m, VInt 42 <> VMap m) by (intros m; discriminate).
  split; [exact H1|]. split; [exact H2|].
  exact (Add_rejects_non_mapping sample.ada (VInt 42) H1 H2).
Defined.

Lemma Add_resolves_keys_witness :
  let king := VString "King" in
  let c := stringProperty.mk sample.familyName None false
             (stringProperty.digest sample.familyName None) in
  let p1 := withSubProps (<[1 := (Property.Add c king).1]>
                            (subProps sample.ada)) sample.ada in
  wellIndexed sample.ada
  /\ Add (VMap [("nickName", VString "Countess"); ("FAMILYNAME", king)])
       sample.ada
     = Add (VMap [("FAMILYNAME", king)]) sample.ada
  /\ subProps sample.ada !! 1 = Some c
  /\ goesBy c "FAMILYNAME" = true
  /\ (Property.Add c king).2 = Val None
  /\ Add (VMap [("FAMILYNAME", king)]) sample.ada = Add (VMap []) p1
  /\ wellIndexed p1
  /\ Raw (Add (VMap []) p1).1
     = VMap [("givenName", VString "Ada"); ("familyName", king)].
Proof.
  intros king c p1.
  assert (Hwf : wellIndexed sample.ada) by (vm_compute; reflexivity).
  assert (Hc : subProps sample.ada !! 1 = Some c) by (vm_compute; reflexivity).
  assert (Hgo : goesBy c "FAMILYNAME" = true) by (vm_compute; reflexivity).
  assert (Hadd : (Property.Add c king).2 = Val None)
    by (vm_compute; reflexivity).
  split; [exact Hwf|].
  split.
  { destruct (Add_resolves_keys_case_insensitively sample.ada "nickName"
                (VString "Countess") [("FAMILYNAME", king)] Hwf)
      as [Hdrop _].
    apply Hdrop. repeat constructor. }
  split; [exact Hc|]. split; [exact Hgo|]. split; [exact Hadd|].
  destruct (Add_resolves_keys_case_insensitively sample.ada "FAMILYNAME"
              king [] Hwf) as (_ & Hdelegate & _).
  destruct (Hdelegate 1 c Hc Hgo) as [Hcall Hindex].
  { intros [|[|j]] c' Hj Hc'; [lia | lia | done]. }
  split; [|split].
  - rewrite Hcall. fold p1. by rewrite Hadd.
  - apply Hindex. vm_compute. reflexivity.
  - vm_compute. reflexivity.
Defined.

(** C4 as stated fails.  In the first call the second entry is refused
    by the child [familyName]: [Replace] returns the child's error, which
    names the child's path, and the first entry stays assigned.  In the
    second call the child is itself a complex property and refuses a
    string: again the error that comes back is the child's. *)
Lemma Replace_returns_child_error :
  let v := VMap [("givenName", VString "Ada"); ("familyName", VInt 7)] in
  let after := Replace v sample.newName in
  let w := VMap [("manager", VString "Grace")] in
  (after.2
   = Val (Some (InvalidValue
        "value of type int64 is incompatible with attribute 'name.familyName'"))
   /\ after.2 <> Val (Some (errIncompatibleValue sample.newName v))
   /\ Path (attr sample.newName) = "name"
   /\ IsUnassigned after.1 = false
   /\ Raw after.1 = VMap [("givenName", VString "Ada"); ("familyName", VNil)])
  /\ (Replace w sample.newEnterprise).2
     = Val (Some (InvalidValue
          "value of type string is incompatible with attribute 'enterprise.manager'"))
  /\ (Replace w sample.newEnterprise).2
     <> Val (Some (errIncompatibleValue sample.newEnterprise w))
  /\ Path (attr sample.newEnterprise) = "enterprise".
Proof.
  vm_compute. repeat split; discriminate.
Qed.

Lemma Replace_failures_witness :
  VInt 42 <> VNil
  /\ Replace (VInt 42) sample.ada
     = ((Delete sample.ada).1,
        Val (Some (InvalidValue
           "value of type int64 is incompatible with attribute 'name'"))).
Proof.
  assert (Hnil : VInt 42 <> VNil) by discriminate.
  split; [exact Hnil|].
  destruct (Replace_failures sample.ada (VInt 42) Hnil)
    as (_ & _ & _ & Hdone).
  destruct Hdone as (_ & _ & _ & Hreject); [vm_compute; reflexivity|].
  apply Hreject. intros m. discriminate.
Defined.



End prop_facts.

(** * Further properties of the code *)

(** ** Package core: names, defaults, derived forms composed *)

Module core_more.

Import core.

Lemma lowerByte_idempotent (c : ascii) : lowerByte (lowerByte c) = lowerByte c.
Proof.
  destruct c as [[] [] [] [] [] [] [] []]; vm_compute; reflexivity.
Qed.

Lemma lowerByte_isASCIIByte (c : ascii) :
  isASCIIByte (lowerByte c) = isASCIIByte c.
Proof.
  destruct c as [[] [] [] [] [] [] [] []]; vm_compute; reflexivity.
Qed.

Lemma lowerByte_not_upper (c : ascii) : isUpperByte (lowerByte c) = false.
Proof.
  destruct c as [[] [] [] [] [] [] [] []]; vm_compute; reflexivity.
Qed.

Lemma lowerBytes_isASCII (s : string) : isASCII (lowerBytes s) = isASCII s.
Proof.
  induction s as [|c rest IH]; [done|].
  simpl. by rewrite lowerByte_isASCIIByte, IH.
Qed.

Lemma lowerBytes_hasUpper (s : string) : hasUpper (lowerBytes s) = false.
Proof.
  induction s as [|c rest IH]; [done|].
  simpl. by rewrite lowerByte_not_upper, IH.
Qed.

Lemma lowerBytes_without_upper (s : string) :
  hasUpper s = false -> lowerBytes s = s.
Proof.
  induction s as [|c rest IH]; [done|].
  simpl. intros [Hc Hrest]%orb_false_iff. rewrite (IH Hrest).
  unfold lowerByte, isUpperByte in *. by rewrite Hc.
Qed.

Section names.

Context {U : UnicodeTables}.

(** On a string of ASCII bytes [strings.ToLower] is the byte-wise fold,
    with or without the shortcut for strings without upper-case
    letters. *)
Lemma ToLower_ascii (s : string) :
  isASCII s = true -> ToLower s = lowerBytes s.
Proof.
  intros Hs. unfold ToLower. rewrite Hs.
  destruct (hasUpper s) eqn:Hu; [done|].
  simpl. by rewrite lowerBytes_without_upper.
Qed.

Lemma ToLower_idempotent (s : string) :
  isASCII s = true -> ToLower (ToLower s) = ToLower s.
Proof.
  intros Hs. rewrite (ToLower_ascii s Hs).
  rewrite ToLower_ascii by by rewrite lowerBytes_isASCII.
  by rewrite lowerBytes_without_upper by apply lowerBytes_hasUpper.
Qed.

(** X1.  [GoesBy] on nil is false.  On an attribute it is true exactly
    when the given name and the attribute's name are equal after
    [strings.ToLower]; so the attribute goes by its own name.  For a name
    of ASCII bytes, lower-casing the argument first does not change the
    answer, and against an attribute name of ASCII bytes the answer is
    the comparison of the two names with A-Z folded byte by byte,
    whatever the Unicode tables hold. *)
Theorem GoesBy_compares_lowercase (h : heap) (name : string) :
  GoesBy None name h = Some false
  /\ forall (l : loc) (a : Attribute),
      h !! l = Some a ->
      (GoesBy (Some l) name h = Some true
       <-> ToLower name = ToLower (Name a))
      /\ GoesBy (Some l) (Name a) h = Some true
      /\ (isASCII name = true ->
          GoesBy (Some l) (ToLower name) h = GoesBy (Some l) name h)
      /\ (isASCII name = true -> isASCII (Name a) = true ->
          GoesBy (Some l) name h
          = Some (String.eqb (lowerBytes name) (lowerBytes (Name a)))).
Proof.
  split; [done|]. intros l a Hl. unfold GoesBy, deref. rewrite Hl. simpl.
  rewrite !String.eqb_refl.
  split; [|split; [done|split]].
  - split.
    + intros [= E]. by apply String.eqb_eq.
    + intros E. f_equal. by apply String.eqb_eq.
  - intros Hn. by rewrite ToLower_idempotent.
  - intros Hn Ha. by rewrite !ToLower_ascii.
Qed.

End names.

#[local] Existing Instance sample.tables.

Lemma GoesBy_compares_lowercase_witness :
  sample.store !! 1%positive = Some sample.emails
  /\ GoesBy (Some 1%positive) "EMails" sample.store = Some true.
Proof.
  split; [reflexivity|].
  destruct (GoesBy_compares_lowercase sample.store "EMails") as [_ Hgo].
  destruct (Hgo 1%positive sample.emails eq_refl) as [Hiff _].
  apply Hiff. reflexivity.
Defined.

(** The struct that [setDefaults] leaves at the receiver's address. *)
Lemma setDefaults_result (h : heap) (l : loc) (a : Attribute) :
  h !! l = Some a ->
  setDefaults (Some l) h
  = Some (<[l := {| Name := Name a; Description := Description a;
                    Type_ := if isEmpty (Type_ a) then TypeString
                             else Type_ a;
                    SubAttributes := SubAttributes a;
                    CanonicalValues := CanonicalValues a;
                    MultiValued := MultiValued a; Required := Required a;
                    CaseExact := CaseExact a;
                    Mutability := if isEmpty (Mutability a)
                                  then MutabilityReadWrite
                                  else Mutability a;
                    Returned := if isEmpty (Returned a) then ReturnedDefault
                                else Returned a;
                    Uniqueness := if isEmpty (Uniqueness a)
                                  then UniquenessNone
                                  else Uniqueness a;
                    ReferenceTypes := ReferenceTypes a;
                    Metadata := Metadata a |}]> h).
Proof.
  intros Hl. unfold setDefaults, deref. rewrite Hl. simpl.
  destruct a as [n d t sa cv mv rq ce mu rt un rf md]. simpl.
  destruct (isEmpty t); simpl; destruct (isEmpty mu); simpl;
    destruct (isEmpty rt); simpl; by destruct (isEmpty un).
Qed.

(** X2.  [setDefaults] on nil changes nothing.  On an attribute it writes
    to that one object and to no other, allocates nothing, and leaves the
    object with none of Type, Mutability, Returned, Uniqueness empty: a
    field that was empty holds its default, a field that was not empty is
    as it was, and the nine other fields are as they were. *)
Theorem setDefaults_fills_only_empty_fields (h : heap) :
  setDefaults None h = Some h
  /\ forall (l : loc) (a : Attribute),
      h !! l = Some a ->
      exists b,
        setDefaults (Some l) h = Some (<[l := b]> h)
        /\ dom (<[l := b]> h) = dom h
        /\ (forall k, k <> l -> <[l := b]> h !! k = h !! k)
        /\ Type_ b = (if isEmpty (Type_ a) then "string" else Type_ a)
        /\ Mutability b
           = (if isEmpty (Mutability a) then "readWrite" else Mutability a)
        /\ Returned b
           = (if isEmpty (Returned a) then "default" else Returned a)
        /\ Uniqueness b
           = (if isEmpty (Uniqueness a) then "none" else Uniqueness a)
        /\ isEmpty (Type_ b) = false /\ isEmpty (Mutability b) = false
        /\ isEmpty (Returned b) = false /\ isEmpty (Uniqueness b) = false
        /\ Name b = Name a /\ Description b = Description a
        /\ SubAttributes b = SubAttributes a
        /\ CanonicalValues b = CanonicalValues a
        /\ MultiValued b = MultiValued a /\ Required b = Required a
        /\ CaseExact b = CaseExact a
        /\ ReferenceTypes b = ReferenceTypes a /\ Metadata b = Metadata a.
Proof.
  split; [done|]. intros l a Hl. eexists. split;
    [by apply setDefaults_result|]. simpl.
  split; [apply dom_insert_lookup_L; by eexists|].
  split; [intros k Hk; by apply lookup_insert_ne|].
  repeat split;
    by (destruct (isEmpty (Type_ a)) eqn:?, (isEmpty (Mutability a)) eqn:?,
          (isEmpty (Returned a)) eqn:?, (isEmpty (Uniqueness a)) eqn:?).
Qed.

Lemma setDefaults_fills_witness :
  sample.rawStore !! 2%positive = Some sample.userName
  /\ exists b,
      setDefaults (Some 2%positive) sample.rawStore
      = Some (<[2%positive := b]> sample.rawStore)
      /\ Type_ b = "string" /\ Mutability b = "immutable".
Proof.
  split; [reflexivity|].
  destruct (proj2 (setDefaults_fills_only_empty_fields sample.rawStore)
              2%positive sample.userName eq_refl)
    as (b & Hcall & _ & _ & Ht & Hm & _).
  exists b. split; [exact Hcall|]. split; [exact Ht | exact Hm].
Defined.

(** X3.  [setDefaults] is idempotent: a second call on the same attribute
    leaves the store that the first call produced. *)
Theorem setDefaults_idempotent (attr : option loc) (h h1 : heap) :
  setDefaults attr h = Some h1 -> setDefaults attr h1 = Some h1.
Proof.
  destruct attr as [l|]; [|by intros [= <-]].
  destruct (h !! l) as [a|] eqn:Hl;
    [|unfold setDefaults, deref; by rewrite Hl].
  rewrite (setDefaults_result h l a Hl). intros [= <-].
  erewrite setDefaults_result by apply lookup_insert_eq. simpl.
  rewrite insert_insert_eq. do 2 f_equal.
  destruct a as [n d t sa cv mv rq ce mu rt un rf md]. simpl.
  by destruct (isEmpty t) eqn:?, (isEmpty mu) eqn:?, (isEmpty rt) eqn:?,
       (isEmpty un) eqn:?; simpl; rewrite ?Heqb, ?Heqb0, ?Heqb1, ?Heqb2.
Qed.

Lemma setDefaults_idempotent_witness :
  exists h1,
    setDefaults (Some 2%positive) sample.rawStore = Some h1
    /\ setDefaults (Some 2%positive) h1 = Some h1.
Proof.
  destruct (setDefaults (Some 2%positive) sample.rawStore) as [h1|] eqn:E;
    [|discriminate E].
  exists h1. split; [reflexivity|].
  exact (setDefaults_idempotent (Some 2%positive) sample.rawStore h1 E).
Defined.

(** What the two derivations leave behind the pointer they return. *)
Lemma ToSingleValued_object (h : heap) (l : loc) (a : Attribute) :
  h !! l = Some a ->
  exists h1 r1 b,
    ToSingleValued (Some l) h = Some (h1, Some r1)
    /\ h1 !! r1 = Some b /\ preserved h h1
    /\ MultiValued b = false /\ Required b = Required a
    /\ sameOtherFields a b.
Proof.
  intros Hl. unfold ToSingleValued, deref. rewrite Hl. simpl.
  destruct (MultiValued a) eqn:Hm; simpl.
  - match goal with |- context [<[_ := ?x]> h] =>
      destruct (core_facts.new_fresh x h) as (_ & Hsome & Hpres) end.
    eexists _, _, _. split; [reflexivity|]. split; [exact Hsome|].
    split; [exact Hpres|]. by repeat split.
  - exists h, l, a. split; [done|]. split; [done|].
    split; [by intros k b|]. by repeat split.
Qed.

Lemma ToOptional_object (h : heap) (l : loc) (a : Attribute) :
  h !! l = Some a ->
  exists h1 r1 b,
    ToOptional (Some l) h = Some (h1, Some r1)
    /\ h1 !! r1 = Some b /\ preserved h h1
    /\ Required b = false /\ MultiValued b = MultiValued a
    /\ sameOtherFields a b.
Proof.
  intros Hl. unfold ToOptional, deref. rewrite Hl. simpl.
  destruct (Required a) eqn:Hm; simpl.
  - match goal with |- context [<[_ := ?x]> h] =>
      destruct (core_facts.new_fresh x h) as (_ & Hsome & Hpres) end.
    eexists _, _, _. split; [reflexivity|]. split; [exact Hsome|].
    split; [exact Hpres|]. by repeat split.
  - exists h, l, a. split; [done|]. split; [done|].
    split; [by intros k b|]. by repeat split.
Qed.

(** X4.  The derivations are idempotent: called on their own result they
    return the pointer they were given and leave the store alone, whether
    the first call made a new object or not. *)
Theorem derived_forms_idempotent (attr r1 : option loc) (h h1 : heap) :
  (ToSingleValued attr h = Some (h1, r1) ->
   ToSingleValued r1 h1 = Some (h1, r1))
  /\ (ToOptional attr h = Some (h1, r1) ->
      ToOptional r1 h1 = Some (h1, r1)).
Proof.
  split.
  - destruct attr as [l|]; [|by intros [= <- <-]].
    destruct (h !! l) as [a|] eqn:Hl;
      [|unfold ToSingleValued, deref; by rewrite Hl].
    destruct (ToSingleValued_object h l a Hl)
      as (h' & r' & b & Hcall & Hb & _ & Hflag & _).
    rewrite Hcall. intros [= <- <-].
    unfold ToSingleValued, deref. rewrite Hb. simpl. by rewrite Hflag.
  - destruct attr as [l|]; [|by intros [= <- <-]].
    destruct (h !! l) as [a|] eqn:Hl;
      [|unfold ToOptional, deref; by rewrite Hl].
    destruct (ToOptional_object h l a Hl)
      as (h' & r' & b & Hcall & Hb & _ & Hflag & _).
    rewrite Hcall. intros [= <- <-].
    unfold ToOptional, deref. rewrite Hb. simpl. by rewrite Hflag.
Qed.

Lemma derived_forms_idempotent_witness :
  exists h1 r1,
    ToSingleValued (Some 1%positive) sample.store = Some (h1, r1)
    /\ r1 <> Some 1%positive
    /\ ToSingleValued r1 h1 = Some (h1, r1).
Proof.
  destruct (ToSingleValued (Some 1%positive) sample.store)
    as [[h1 r1]|] eqn:E; [|discriminate E].
  exists h1, r1. split; [reflexivity|]. split.
  - vm_compute in E. injection E as _ <-. discriminate.
  - exact (proj1 (derived_forms_idempotent (Some 1%positive) r1
                    sample.store h1) E).
Defined.

(** X5.  The two derivations commute up to the address: single-valued
    then optional, and optional then single-valued, both end at an object
    with both flags false and every other field, the shared slices and
    metadata included, as in the original; the objects of the original
    store are untouched either way, and the result goes by exactly the
    names the original goes by. *)
Theorem derived_forms_commute (h : heap) (l : loc) (a : Attribute) :
  h !! l = Some a ->
  exists h1 r1 h2 r2 h1' r1' h2' r2' b,
    ToSingleValued (Some l) h = Some (h1, Some r1)
    /\ ToOptional (Some r1) h1 = Some (h2, Some r2)
    /\ ToOptional (Some l) h = Some (h1', Some r1')
    /\ ToSingleValued (Some r1') h1' = Some (h2', Some r2')
    /\ h2 !! r2 = Some b /\ h2' !! r2' = Some b
    /\ MultiValued b = false /\ Required b = false
    /\ sameOtherFields a b
    /\ preserved h h2 /\ preserved h h2'
    /\ (forall name, GoesBy (Some r2) name h2 = GoesBy (Some l) name h)
    /\ (forall name, GoesBy (Some r2') name h2' = GoesBy (Some l) name h).
Proof.
  intros Hl.
  destruct (ToSingleValued_object h l a Hl)
    as (h1 & r1 & b1 & Hs & Hb1 & Hp1 & Hm1 & Hr1 & Hsame1).
  destruct (ToOptional_object h1 r1 b1 Hb1)
    as (h2 & r2 & b2 & Ho & Hb2 & Hp2 & Hr2 & Hm2 & Hsame2).
  destruct (ToOptional_object h l a Hl)
    as (h1' & r1' & b1' & Ho' & Hb1' & Hp1' & Hr1' & Hm1' & Hsame1').
  destruct (ToSingleValued_object h1' r1' b1' Hb1')
    as (h2' & r2' & b2' & Hs' & Hb2' & Hp2' & Hm2' & Hr2' & Hsame2').
  assert (Heq : b2' = b2).
  { destruct a, b1, b2, b1', b2'. unfold sameOtherFields in *. simpl in *.
    destruct Hsame1 as (? & ? & ? & ? & ? & ? & ? & ? & ? & ? & ?).
    destruct Hsame2 as (? & ? & ? & ? & ? & ? & ? & ? & ? & ? & ?).
    destruct Hsame1' as (? & ? & ? & ? & ? & ? & ? & ? & ? & ? & ?).
    destruct Hsame2' as (? & ? & ? & ? & ? & ? & ? & ? & ? & ? & ?).
    by subst. }
  subst b2'.
  assert (Hsame : sameOtherFields a b2).
  { unfold sameOtherFields in *.
    destruct Hsame1 as (? & ? & ? & ? & ? & ? & ? & ? & ? & ? & ?).
    destruct Hsame2 as (? & ? & ? & ? & ? & ? & ? & ? & ? & ? & ?).
    repeat split; congruence. }
  exists h1, r1, h2, r2, h1', r1', h2', r2', b2.
  split_and!; [exact Hs | exact Ho | exact Ho' | exact Hs' | exact Hb2
              | exact Hb2' | congruence | exact Hr2 | exact Hsame | | | | ].
  - intros k x Hk. by apply Hp2, Hp1.
  - intros k x Hk. by apply Hp2', Hp1'.
  - intros name. unfold GoesBy, deref. rewrite Hb2, Hl. simpl.
    by destruct Hsame as (-> & _).
  - intros name. unfold GoesBy, deref. rewrite Hb2', Hl. simpl.
    by destruct Hsame as (-> & _).
Qed.

Lemma derived_forms_commute_witness :
  sample.store !! 1%positive = Some sample.emails
  /\ exists h1 r1 h2 r2 b,
      ToSingleValued (Some 1%positive) sample.store = Some (h1, Some r1)
      /\ ToOptional (Some r1) h1 = Some (h2, Some r2)
      /\ h2 !! r2 = Some b /\ MultiValued b = false /\ Required b = false.
Proof.
  split; [reflexivity|].
  destruct (derived_forms_commute sample.store 1%positive sample.emails
              eq_refl)
    as (h1 & r1 & h2 & r2 & _ & _ & _ & _ & b & Hs & Ho & _ & _ & Hb & _
        & Hm & Hr & _).
  exists h1, r1, h2, r2, b. repeat split; assumption.
Defined.

End core_more.

(** ** Package prop: what the methods keep, and how they compose *)

Module prop_more.

Import schema prop described prop_facts.

Section complex.

Context {U : UnicodeTables} {T : Type} `{Property.impl T}.

Implicit Types (p q : complexProperty T) (v : value) (cs : list T).

Local Opaque fnv.step fnv.PutUint64.

(** *** The loop over the children *)

(** Children that the body leaves related to what they were stay so
    through the loop, however it ends. *)
Lemma rangeSubProps_related {C : Type} (R : T -> T -> Prop)
    (body : nat -> T -> C -> (T * C) * res (option error)) cs :
  (forall c, R c c) ->
  (forall i c st, R c (body i c st).1.1) ->
  forall (i : nat) (st : C),
    Forall2 R cs (rangeSubProps body i cs st).1.1.
Proof.
  intros Hrefl Hbody.
  induction cs as [|c rest IH]; intros i st; [by constructor|].
  simpl. pose proof (Hbody i c st) as Hc.
  destruct (body i c st) as [[c1 st1] [[e|]|r]]; simpl in *.
  - constructor; [done|]. by apply Forall_Forall2_diag, Forall_forall.
  - specialize (IH (S i) st1).
    destruct (rangeSubProps body (S i) rest st1) as [[rest1 st2] r1].
    by constructor.
  - constructor; [done|]. by apply Forall_Forall2_diag, Forall_forall.
Qed.

(** The loop over a list in two parts: the second part is entered, with
    the indices continued, only if the first ran to its end. *)
Lemma rangeSubProps_app {C : Type}
    (body : nat -> T -> C -> (T * C) * res (option error)) cs1 cs2 :
  forall (i : nat) (st : C),
    rangeSubProps body i (cs1 ++ cs2)%list st
    = match rangeSubProps body i cs1 st with
      | ((cs1', st1), Val None) =>
          match rangeSubProps body (i + length cs1) cs2 st1 with
          | ((cs2', st2), r) => ((cs1' ++ cs2')%list, st2, r)
          end
      | ((cs1', st1), r) => ((cs1' ++ cs2)%list, st1, r)
      end.
Proof.
  induction cs1 as [|c rest IH]; intros i st; simpl.
  - rewrite Nat.add_0_r.
    by destruct (rangeSubProps body i cs2 st) as [[cs2' st2] r].
  - destruct (body i c st) as [[c1 st1] [[e|]|r]]; try done.
    rewrite IH.
    replace (S i + length rest) with (i + S (length rest)) by lia.
    destruct (rangeSubProps body (S i) rest st1)
      as [[rest1 st2] [[e|]|r]]; try done.
    by destruct (rangeSubProps body (i + S (length rest)) cs2 st2)
      as [[cs2' st3] r].
Qed.

Lemma onChild_length {A : Type} (i : nat) (call : T -> T * res A) p :
  length (subProps (onChild i call p).1) = length (subProps p).
Proof.
  unfold onChild. destruct (subProps p !! i) as [c|]; [|done].
  destruct (call c). simpl. apply length_insert.
Qed.

Lemma computeHash_length p :
  length (subProps (computeHash p).1) = length (subProps p).
Proof.
  unfold computeHash, ForEachChild.
  pose proof (rangeSubProps_related (fun _ _ => True)
                (hashChild (HasIdentitySubAttributes (attr p)))
                (subProps p) (fun _ => I) (fun _ _ _ => I) 0 fnv.New64a)
    as Hlen%Forall2_length.
  by destruct (rangeSubProps _ 0 (subProps p) fnv.New64a)
    as [[cs h] [[e|]|r]].
Qed.

Lemma addEntries_length (m : list (string * value)) :
  forall p, length (subProps (addEntries m p).1) = length (subProps p).
Proof.
  induction m as [|[k v] rest IH]; intros p; [done|].
  rewrite addEntries_cons.
  destruct (nameIndex p !! ToLower k) as [i|]; [|apply IH].
  pose proof (onChild_length i (fun c => Property.Add c v) p) as Hlen.
  destruct (onChild i _ p) as [p1 [[e|]|r]]; simpl in *; try done.
  by rewrite IH.
Qed.

Lemma Add_length v p :
  length (subProps (Add v p).1) = length (subProps p).
Proof.
  destruct v; try done. unfold Add, bind.
  pose proof (addEntries_length m p) as Hlen.
  destruct (addEntries m p) as [p1 [[e|]|r]]; simpl in *; try done.
  pose proof (computeHash_length p1) as Hlen'.
  destruct (computeHash p1) as [p2 [[]|r]]; simpl in *; congruence.
Qed.

Lemma Delete_length p :
  length (subProps (Delete p).1) = length (subProps p).
Proof.
  unfold Delete.
  match goal with |- context [rangeSubProps ?f 0 (subProps p) tt] =>
    pose proof (rangeSubProps_related (fun _ _ => True) f (subProps p)
                  (fun _ => I) (fun _ _ _ => I) 0 tt)
      as Hlen%Forall2_length;
    destruct (rangeSubProps f 0 (subProps p) tt)
      as [[cs u] [[e|]|r]] end; simpl in *; try done.
  unfold bind.
  pose proof (computeHash_length (withSubProps cs p)) as Hlen'.
  destruct (computeHash (withSubProps cs p)) as [p2 [[]|r]];
    simpl in *; congruence.
Qed.

Lemma Hash_frame p :
  attr (Hash p).1 = attr p /\ nameIndex (Hash p).1 = nameIndex p
  /\ length (subProps (Hash p).1) = length (subProps p).
Proof.
  unfold Hash, bind, get. destruct (hash p =? 0)%Z; [|done].
  pose proof (computeHash_frame p) as [Ha Hn].
  pose proof (computeHash_length p) as Hl.
  by destruct (computeHash p) as [p1 [[]|r]].
Qed.

Lemma Replace_frame v p :
  attr (Replace v p).1 = attr p /\ nameIndex (Replace v p).1 = nameIndex p
  /\ length (subProps (Replace v p).1) = length (subProps p).
Proof.
  assert (Hbody : forall b : M (complexProperty T) (option error),
             b = bind Delete
                   (fun err => match err with
                               | Some e => ret (Some e)
                               | None => Add v
                               end) ->
             attr (b p).1 = attr p /\ nameIndex (b p).1 = nameIndex p
             /\ length (subProps (b p).1) = length (subProps p)).
  { intros b ->. unfold bind.
    pose proof (Delete_frame p) as [Ha Hn].
    pose proof (Delete_length p) as Hl.
    destruct (Delete p) as [p1 [[e|]|r]]; simpl in *; try done.
    pose proof (Add_frame v p1) as [Ha' Hn'].
    pose proof (Add_length v p1) as Hl'.
    split; [congruence|]. split; congruence. }
  destruct v; try done; unfold Replace, deferRecover;
    match goal with |- context [bind ?a ?b p] =>
      specialize (Hbody (bind a b) eq_refl);
      destruct (bind a b p) as [p' [r|r]] end; done.
Qed.

(** X6.  The shape of a complex property is fixed: [Add], [Delete],
    [Replace] and [Hash], whatever their argument and however they end
    (no error, an error, a panic), leave the attribute, the name index
    and the number of children as they were. *)
Theorem mutations_keep_the_shape p v :
  let same q :=
    attr q = attr p /\ nameIndex q = nameIndex p
    /\ CountChildren q = CountChildren p in
  same (Add v p).1 /\ same (Delete p).1 /\ same (Replace v p).1
  /\ same (Hash p).1.
Proof.
  unfold CountChildren. split_and!;
    try apply Add_frame; try apply Delete_frame; try apply Replace_frame;
    try apply Hash_frame; try apply Add_length; try apply Delete_length.
Qed.

(** *** Addressing children by name *)

Lemma indexFrom_sound cs :
  forall (i : nat) (idx : gmap string nat) (s : string) (j : nat),
    indexFrom i cs idx !! s = Some j ->
    idx !! s = Some j
    \/ exists c, i <= j /\ cs !! (j - i) = Some c
                 /\ ToLower (Name (Property.Attribute c)) = s.
Proof.
  induction cs as [|a rest IH]; intros i idx s j Hj; [by left|].
  simpl in Hj. apply IH in Hj as [Hj | (c & Hle & Hc & Hs)].
  - destruct (decide (ToLower (Name (Property.Attribute a)) = s)) as [E|E].
    + subst s. rewrite lookup_insert_eq in Hj. injection Hj as <-.
      right. exists a. by rewrite Nat.sub_diag.
    + rewrite lookup_insert_ne in Hj by done. by left.
  - right. exists c. split; [lia|]. split; [|done].
    by replace (j - i) with (S (j - S i)) by lia.
Qed.

Lemma wellIndexed_sound p (s : string) (i : nat) :
  wellIndexed p ->
  nameIndex p !! s = Some i ->
  exists c, subProps p !! i = Some c
            /\ ToLower (Name (Property.Attribute c)) = s.
Proof.
  intros Hwf Hi. rewrite Hwf in Hi.
  apply indexFrom_sound in Hi as [Hi | (c & _ & Hc & Hs)]; [done|].
  rewrite Nat.sub_0_r in Hc. by exists c.
Qed.

Lemma wellIndexed_lookup p (k : string) :
  wellIndexed p ->
  nameIndex p !! ToLower k = resolveFrom 0 (subProps p) k.
Proof.
  intros Hwf. rewrite Hwf, indexFrom_lookup.
  destruct (resolveFrom 0 (subProps p) k); [done | apply lookup_empty].
Qed.

(** X8.  On a property whose index mirrors its children, every entry of
    the index leads to a child, and that child's lower-cased name is the
    entry's key; so neither [ChildAtIndex] nor [Add] ever indexes outside
    [subProps].  [ChildAtIndex] returns nil for an index that is not a
    string and for a name that no child goes by, the (last) child going
    by the name otherwise, and the same for two names equal up to case.
    With distinct names every child is found under its own attribute's
    name. *)
Theorem ChildAtIndex_finds_children p (name : string) :
  wellIndexed p ->
  (forall (s : string) (i : nat),
      nameIndex p !! s = Some i ->
      exists c, subProps p !! i = Some c
                /\ ToLower (Name (Property.Attribute c)) = s)
  /\ (forall index, (forall x, index <> VString x) ->
                    ChildAtIndex p index = Val None)
  /\ (Forall (fun c => goesBy c name = false) (subProps p) ->
      ChildAtIndex p (VString name) = Val None)
  /\ (forall (i : nat) (c : T),
        subProps p !! i = Some c ->
        goesBy c name = true ->
        (forall j c', i < j -> subProps p !! j = Some c' ->
                      goesBy c' name = false) ->
        ChildAtIndex p (VString name) = Val (Some c))
  /\ (exists r, ChildAtIndex p (VString name) = Val r)
  /\ (forall name', ToLower name' = ToLower name ->
                    ChildAtIndex p (VString name')
                    = ChildAtIndex p (VString name))
  /\ (distinctNames p ->
      forall (i : nat) (c : T),
        subProps p !! i = Some c ->
        ChildAtIndex p (VString (Name (Property.Attribute c)))
        = Val (Some c)).
Proof.
  intros Hwf.
  assert (Hfound : forall (n : string) (i : nat) (c : T),
             subProps p !! i = Some c ->
             goesBy c n = true ->
             (forall j c', i < j -> subProps p !! j = Some c' ->
                           goesBy c' n = false) ->
             ChildAtIndex p (VString n) = Val (Some c)).
  { intros n i c Hi Hc Hlater. unfold ChildAtIndex.
    rewrite (wellIndexed_lookup p n Hwf),
      (resolveFrom_last _ _ 0 i c Hi Hc Hlater).
    simpl. by rewrite Hi. }
  split_and!.
  - intros s i. by apply wellIndexed_sound.
  - intros index Hindex. destruct index; try done. by destruct (Hindex s).
  - intros Hnone. unfold ChildAtIndex.
    by rewrite (wellIndexed_lookup p name Hwf),
      (resolveFrom_None _ _ _ Hnone).
  - apply Hfound.
  - unfold ChildAtIndex.
    destruct (nameIndex p !! ToLower name) as [i|] eqn:Hi; [|by eexists].
    apply (wellIndexed_sound p _ _ Hwf) in Hi as (c & -> & _). by eexists.
  - intros name' Hsame. unfold ChildAtIndex. by rewrite Hsame.
  - intros Hnd i c Hi. apply (Hfound _ i c Hi).
    + unfold goesBy. apply String.eqb_refl.
    + intros j c' Hlt Hj. destruct (goesBy c' (Name (Property.Attribute c)))
        eqn:G; [|done].
      assert (j = i); [|lia].
      eapply (distinct_goesBy _ (Name (Property.Attribute c)) j i c' c);
        try done.
      unfold goesBy. apply String.eqb_refl.
Qed.

(** *** Construction *)

Lemma addSubAttribute_returns (K : Property.constructors T)
    (subs : list schema.Attribute) :
  forall acc : list T * gmap string nat,
    (exists r, fold_left (addSubAttribute K) subs (Val acc) = Val r)
    <-> Forall (fun sub => exists c, newSubProperty K sub = Val c) subs.
Proof.
  induction subs as [|sub rest IH]; intros [cs idx]; simpl.
  - split; [by constructor | by eexists].
  - destruct (newSubProperty K sub) as [c|r] eqn:Hnew.
    + rewrite IH. split.
      * intros Hrest. constructor; [by eexists | done].
      * by inversion 1.
    + rewrite addSubAttribute_panic. split.
      * by intros [? ?].
      * inversion 1 as [|? ? [c Hc] _]. congruence.
Qed.

(** X9.  [NewComplex] returns a property exactly when the attribute is
    single-valued, of type complex, and a property can be built for each
    sub-attribute; in every other case it panics.  A single-valued
    sub-attribute of a type outside the eight known ones is such a case:
    it panics with "invalid type", whatever the constructors are. *)
Theorem NewComplex_returns_iff (K : Property.constructors T)
    (a : schema.Attribute) :
  ((exists p, NewComplex K a = Val p)
   <-> MultiValued a = false /\ Type_ a = TypeComplex
       /\ Forall (fun sub => exists c, newSubProperty K sub = Val c)
            (SubAttributes a))
  /\ ((MultiValued a = true \/ Type_ a <> TypeComplex) ->
      NewComplex K a = Panic "invalid attribute for complex property")
  /\ (forall sub,
        MultiValued sub = false ->
        Type_ sub ∉ [TypeString; TypeInteger; TypeDecimal; TypeBoolean;
                     TypeDateTime; TypeReference; TypeBinary; TypeComplex] ->
        newSubProperty K sub = Panic "invalid type").
Proof.
  split_and!.
  - unfold NewComplex, SingleValued.
    destruct (MultiValued a); simpl;
      [split; [by intros [? ?] | by intros [? _]]|].
    destruct (String.eqb_spec (Type_ a) TypeComplex) as [E|E]; simpl;
      [|split; [by intros [? ?] | by intros (_ & ? & _)]].
    pose proof (addSubAttribute_returns K (SubAttributes a) ([], ∅)) as Hall.
    destruct (fold_left (addSubAttribute K) (SubAttributes a) (Val ([], ∅)))
      as [[cs idx]|r].
    + split; [intros _|by eexists]. split; [done|]. split; [done|].
      apply Hall. by eexists.
    + split; [by intros [? ?]|]. intros (_ & _ & Hsubs).
      apply Hall in Hsubs as [? ?]. done.
  - unfold NewComplex, SingleValued. intros [-> | Hne]; [done|].
    destruct (String.eqb_spec (Type_ a) TypeComplex); [done|].
    by rewrite orb_true_r.
  - intros sub Hsingle Htype. unfold newSubProperty. rewrite Hsingle.
    repeat (apply not_elem_of_cons in Htype as [? Htype]).
    repeat match goal with
           | |- context [String.eqb (Type_ sub) ?t] =>
               destruct (String.eqb_spec (Type_ sub) t); [done|]
           end.
    done.
Qed.

(** X10.  When every constructor returns a property bound to the
    attribute it was given, what [NewComplex] returns mirrors the schema:
    it is bound to the attribute, it has one child per sub-attribute, in
    declaration order and bound to it, its index leads from every
    lower-cased name to the last child bearing it, and no digest is
    cached. *)
Theorem NewComplex_builds_the_invariant (K : Property.constructors T)
    (a : schema.Attribute) p :
  (forall sub c, newSubProperty K sub = Val c -> Property.Attribute c = sub) ->
  NewComplex K a = Val p ->
  attr p = a
  /\ map Property.Attribute (subProps p) = SubAttributes a
  /\ CountChildren p = CountSubAttributes a
  /\ wellIndexed p
  /\ hash p = 0%Z.
Proof.
  intros Hbound Hnew.
  destruct (NewComplex_mirrors_schema K a p Hbound Hnew)
    as (Ha & Hsubs & Hwf & Hh).
  split_and!; try done.
  unfold CountChildren, CountSubAttributes.
  by rewrite <- Hsubs, length_map.
Qed.

(** *** ForEachChild *)

Lemma withSubProps_same p : withSubProps (subProps p) p = p.
Proof. by destruct p. Qed.

Lemma rangeSubProps_visits {C : Type} (f : nat -> T -> C -> C) cs :
  forall (i : nat) (st : C),
    rangeSubProps (fun j c st => ((c, f j c st), Val None)) i cs st
    = ((cs,
        fold_left (fun st (jc : nat * T) => f jc.1 jc.2 st)
          (imap (fun j c => (i + j, c)) cs) st), Val None).
Proof.
  induction cs as [|c rest IH]; intros i st; [done|].
  simpl. rewrite IH, Nat.add_0_r. do 3 f_equal.
  apply imap_ext. intros j x _. simpl. f_equal. lia.
Qed.

(** X11.  [ForEachChild] with a callback that returns no error calls it
    once on every child, in the order of [subProps], with the child's
    position as the index, and returns no error; the children are the
    ones they were. *)
Theorem ForEachChild_visits_in_order {C : Type} (f : nat -> T -> C -> C)
    p (st : C) :
  ForEachChild (fun i c st => ((c, f i c st), Val None)) (p, st)
  = ((p,
      fold_left (fun st (ic : nat * T) => f ic.1 ic.2 st)
        (imap (fun i c => (i, c)) (subProps p)) st), Val None).
Proof.
  unfold ForEachChild. rewrite rangeSubProps_visits.
  by rewrite withSubProps_same.
Qed.

(** X12.  [ForEachChild] stops at the first child on which the callback
    returns an error or panics: the children before it have been visited,
    the callback's result on that child is the result of the whole call,
    and the children after it are neither visited nor changed. *)
Theorem ForEachChild_stops_at_first_error {C : Type}
    (callback : nat -> T -> C -> (T * C) * res (option error))
    p (st : C) cs1 (c : T) cs2 cs1' (st1 : C) :
  subProps p = (cs1 ++ c :: cs2)%list ->
  ForEachChild callback (withSubProps cs1 p, st)
  = ((withSubProps cs1' p, st1), Val None) ->
  (callback (length cs1) c st1).2 <> Val None ->
  ForEachChild callback (p, st)
  = ((withSubProps
        (cs1' ++ (callback (length cs1) c st1).1.1 :: cs2)%list p,
      (callback (length cs1) c st1).1.2),
     (callback (length cs1) c st1).2).
Proof.
  intros Hsplit Hprefix Hfail. unfold ForEachChild in *. simpl in Hprefix.
  rewrite Hsplit, rangeSubProps_app.
  destruct (rangeSubProps callback 0 cs1 st) as [[cs1'' st1'] r1].
  injection Hprefix as -> -> ->. simpl.
  destruct (callback (length cs1) c st1) as [[c' st2] [[e|]|r]];
    simpl in *; done.
Qed.

(** *** Where Add and Delete stop *)

Lemma addEntries_app (m1 m2 : list (string * value)) :
  forall p,
    addEntries (m1 ++ m2)%list p
    = match addEntries m1 p with
      | (p1, Val None) => addEntries m2 p1
      | (p1, r) => (p1, r)
      end.
Proof.
  induction m1 as [|[k v] rest IH]; intros p; [done|].
  simpl app. rewrite !addEntries_cons.
  destruct (nameIndex p !! ToLower k) as [i|]; [|apply IH].
  destruct (onChild i _ p) as [p1 [[e|]|r]]; first [done | apply IH].
Qed.

Lemma addEntries_hash (m : list (string * value)) :
  forall p, hash (addEntries m p).1 = hash p.
Proof.
  induction m as [|[k v] rest IH]; intros p; [done|].
  rewrite addEntries_cons.
  destruct (nameIndex p !! ToLower k) as [i|]; [|apply IH].
  assert (Hh : hash (onChild i (fun c => Property.Add c v) p).1 = hash p).
  { unfold onChild. destruct (subProps p !! i) as [c|]; [|done].
    by destruct (Property.Add c v). }
  destruct (onChild i _ p) as [p1 [[e|]|r]]; simpl in *; try done.
  by rewrite IH.
Qed.

Lemma computeHash_hash_on_panic p :
  (computeHash p).2 <> Val tt -> hash (computeHash p).1 = hash p.
Proof.
  unfold computeHash, ForEachChild.
  by destruct (rangeSubProps _ 0 (subProps p) fnv.New64a)
    as [[cs h] [[e|]|r]].
Qed.

(** X13.  [Add] of a mapping stops at the first entry that a child
    refuses: when the entries visited before it have gone through, and
    the child addressed by the next key returns an error for its value,
    [Add] returns that error at once.  The entries before stay applied
    (nothing is rolled back), the entries after are not looked at, and the
    cached hash is the one from before the call. *)
Theorem Add_stops_at_first_refusal p p1 (m1 m2 : list (string * value))
    (k : string) v (i : nat) (c : T) (e : error) :
  addEntries m1 p = (p1, Val None) ->
  nameIndex p !! ToLower k = Some i ->
  subProps p1 !! i = Some c ->
  (Property.Add c v).2 = Val (Some e) ->
  Add (VMap (m1 ++ (k, v) :: m2)) p
  = ({| attr := attr p;
        subProps := <[i := (Property.Add c v).1]> (subProps p1);
        nameIndex := nameIndex p;
        hash := hash p |}, Val (Some e)).
Proof.
  intros Hm1 Hk Hc He. unfold Add, bind.
  rewrite addEntries_app, Hm1, addEntries_cons.
  pose proof (addEntries_frame m1 p) as [Ha Hn].
  pose proof (addEntries_hash m1 p) as Hh.
  rewrite Hm1 in Ha, Hn, Hh. simpl in *.
  rewrite Hn, Hk. unfold onChild. rewrite Hc.
  destruct (Property.Add c v) as [c1 r]. simpl in *. subst r.
  unfold withSubProps. by rewrite Ha, Hn, Hh.
Qed.

(** X14.  A call of [Add] or [Delete] that does not return nil leaves
    the cached hash as it was, although children may have changed by
    then: the hash is recomputed only at the end of a call that goes
    through. *)
Theorem failure_keeps_the_cached_hash p v :
  ((Add v p).2 <> Val None -> hash (Add v p).1 = hash p)
  /\ ((Delete p).2 <> Val None -> hash (Delete p).1 = hash p).
Proof.
  split.
  - destruct v; try done. unfold Add, bind.
    pose proof (addEntries_hash m p) as Hloop.
    destruct (addEntries m p) as [p1 [[e|]|r]]; simpl in *; try done.
    pose proof (computeHash_hash_on_panic p1) as Hh.
    destruct (computeHash p1) as [p2 [[]|r]]; simpl in *; [done|].
    intros _. rewrite Hh; done.
  - unfold Delete.
    match goal with |- context [rangeSubProps ?f 0 (subProps p) tt] =>
      destruct (rangeSubProps f 0 (subProps p) tt)
        as [[cs u] [[e|]|r]] end; simpl; try done.
    unfold bind.
    pose proof (computeHash_hash_on_panic (withSubProps cs p)) as Hh.
    destruct (computeHash (withSubProps cs p)) as [p2 [[]|r]];
      simpl in *; [done|].
    intros _. by rewrite Hh.
Qed.

Lemma rangeSubProps_Delete_outcome cs :
  forall i : nat,
    let run :=
      rangeSubProps
        (fun _ subProp (_ : unit) =>
           match Property.Delete subProp with
           | (subProp, r) => ((subProp, tt), r)
           end) i cs tt in
    (Forall (fun c => (Property.Delete c).2 = Val None) cs
     /\ run = ((map (fun c => (Property.Delete c).1) cs, tt), Val None))
    \/ exists cs1 c cs2,
        cs = (cs1 ++ c :: cs2)%list
        /\ Forall (fun c => (Property.Delete c).2 = Val None) cs1
        /\ (Property.Delete c).2 <> Val None
        /\ run = ((map (fun c => (Property.Delete c).1) cs1
                     ++ (Property.Delete c).1 :: cs2, tt)%list,
                  (Property.Delete c).2).
Proof.
  induction cs as [|c rest IH]; intros i; simpl; [left; by split|].
  destruct (Property.Delete c) as [c1 [[e|]|r]] eqn:Hd.
  - right. exists [], c, rest. rewrite Hd. by repeat split.
  - destruct (IH (S i)) as [[Hall Hrun] | (cs1 & x & cs2 & -> & Hall & Hx & Hrun)].
    + left. split; [constructor; [by rewrite ?Hd | done]|].
      simpl in Hrun. rewrite Hrun. simpl. by rewrite ?Hd.
    + right. exists (c :: cs1), x, cs2. split; [done|].
      split; [constructor; [by rewrite ?Hd | done]|]. split; [done|].
      simpl in Hrun. rewrite Hrun. simpl. by rewrite ?Hd.
  - right. exists [], c, rest. rewrite Hd. by repeat split.
Qed.

(** X15.  [Delete] either calls [Delete] on every child, each returning
    nil, and then recomputes the hash; or it stops at the first child
    whose [Delete] does not return nil and ends as that child's call
    ended, with the children before it deleted, the children after it
    untouched and the cached hash not recomputed. *)
Theorem Delete_stops_at_first_failure p :
  let del := fun c : T => (Property.Delete c).1 in
  (Forall (fun c => (Property.Delete c).2 = Val None) (subProps p)
   /\ Delete p
      = ((computeHash (withSubProps (map del (subProps p)) p)).1,
         match (computeHash (withSubProps (map del (subProps p)) p)).2 with
         | Val _ => Val None
         | Panic r => Panic r
         end))
  \/ exists cs1 c cs2,
      subProps p = (cs1 ++ c :: cs2)%list
      /\ Forall (fun c => (Property.Delete c).2 = Val None) cs1
      /\ (Property.Delete c).2 <> Val None
      /\ Delete p
         = ({| attr := attr p;
               subProps := (map del cs1 ++ del c :: cs2)%list;
               nameIndex := nameIndex p;
               hash := hash p |}, (Property.Delete c).2).
Proof.
  intros del. unfold Delete.
  destruct (rangeSubProps_Delete_outcome (subProps p) 0)
    as [[Hall Hrun] | (cs1 & c & cs2 & Hsplit & Hall & Hc & Hrun)];
    simpl in Hrun; rewrite Hrun.
  - left. split; [done|]. unfold bind, del.
    by destruct (computeHash _) as [p2 [[]|r]].
  - right. exists cs1, c, cs2. split; [done|]. split; [done|].
    split; [done|].
    by destruct ((Property.Delete c).2) as [[e|]|r].
Qed.


(** *** The cached hash *)

Lemma rangeSubProps_hashChild_called (hasIdentity : bool) cs :
  forall (i : nat) (h : Z) cs' (h' : Z),
    rangeSubProps (hashChild hasIdentity) i cs h = ((cs', h'), Val None) ->
    Forall (hashReturns hasIdentity) cs.
Proof.
  induction cs as [|c rest IH]; intros i h cs' h' Hrun; [by constructor|].
  simpl in Hrun.
  assert (Hc : (hashChild hasIdentity i c h).2 = Val None ->
               hashReturns hasIdentity c).
  { unfold hashChild, hashReturns. fold (skipped hasIdentity c).
    intros Hok Hs Hu. rewrite Hs, Hu in Hok. simpl in Hok.
    destruct (Property.Hash c) as [c1 [sum|r]]; [by eexists | done]. }
  destruct (hashChild hasIdentity i c h) as [[c1 h1] [[e|]|r]]; try done.
  destruct (rangeSubProps (hashChild hasIdentity) (S i) rest h1)
    as [[rest1 h2] r1] eqn:Hrest.
  injection Hrun as _ _ ->. constructor; [by apply Hc | by eapply IH].
Qed.

(** What [computeHash] stores when it returns. *)
Lemma computeHash_done p p' :
  computeHash p = (p', Val tt) ->
  let hasIdentity := HasIdentitySubAttributes (attr p) in
  Forall (hashReturns hasIdentity) (subProps p)
  /\ p' = {| attr := attr p;
             subProps := map (hashed hasIdentity) (subProps p);
             nameIndex := nameIndex p;
             hash := fnv.sum64a
                       (concat (map (hashInput hasIdentity) (subProps p))) |}.
Proof.
  intros Hrun hasIdentity.
  assert (Hall : Forall (hashReturns hasIdentity) (subProps p)).
  { unfold computeHash, ForEachChild in Hrun. fold hasIdentity in Hrun.
    destruct (rangeSubProps (hashChild hasIdentity) 0 (subProps p)
                fnv.New64a) as [[cs h] [[e|]|r]] eqn:Hloop; try done.
    by eapply rangeSubProps_hashChild_called. }
  split; [done|].
  unfold computeHash, ForEachChild in Hrun. fold hasIdentity in Hrun.
  rewrite (rangeSubProps_hashChild _ _ _ _ Hall) in Hrun.
  by injection Hrun as <-.
Qed.

(** X17.  A call of [Add] on a mapping, or of [Delete], that returns nil
    leaves the cache in step with the children: the cached hash is the
    FNV-1a sum of the inputs of the children as the loop over the entries
    (respectively the children's own [Delete]) left them. *)
Theorem success_recomputes_the_hash p p' (m : list (string * value)) :
  let hasIdentity := HasIdentitySubAttributes (attr p) in
  (Add (VMap m) p = (p', Val None) ->
   hash p'
   = fnv.sum64a
       (concat (map (hashInput hasIdentity) (subProps (addEntries m p).1))))
  /\ (Delete p = (p', Val None) ->
      hash p'
      = fnv.sum64a
          (concat (map (hashInput hasIdentity)
                     (map (fun c => (Property.Delete c).1) (subProps p))))).
Proof.
  intros hasIdentity. split.
  - unfold Add, bind. pose proof (addEntries_frame m p) as [Ha _].
    destruct (addEntries m p) as [p1 [[e|]|r]]; try done.
    destruct (computeHash p1) as [p2 [[]|r]] eqn:Hhash; [|done].
    intros [= <-]. apply computeHash_done in Hhash as [_ ->].
    simpl in *. subst hasIdentity. by rewrite Ha.
  - unfold Delete.
    match goal with |- context [rangeSubProps ?f 0 (subProps p) tt] =>
      destruct (rangeSubProps f 0 (subProps p) tt)
        as [[cs u] [[e|]|r]] eqn:Hrun end; try done.
    unfold bind.
    destruct (computeHash (withSubProps cs p)) as [p2 [[]|r]] eqn:Hhash;
      [|done].
    intros [= <-]. apply computeHash_done in Hhash as [_ ->]. simpl.
    by rewrite (rangeSubProps_Delete_done _ _ _ _ Hrun).
Qed.

(** X18.  [Hash] returns what it leaves in the cache.  Once that is not
    zero, the next [Hash] returns it again and changes nothing, and it
    does so whatever has become of the children in between: a change
    made to a child directly is not seen until the property itself is
    changed through [Add], [Replace] or [Delete]. *)
Theorem Hash_is_cached p p1 (h : Z) :
  Hash p = (p1, Val h) ->
  hash p1 = h
  /\ (hash p <> 0%Z -> p1 = p)
  /\ (h <> 0%Z ->
      forall cs', Hash (withSubProps cs' p1) = (withSubProps cs' p1, Val h)).
Proof.
  unfold Hash, bind, get. intros Hrun.
  assert (Hcached : hash p1 = h /\ (hash p <> 0%Z -> p1 = p)).
  { destruct (Z.eqb_spec (hash p) 0) as [E|E].
    - destruct (computeHash p) as [p2 [[]|r]]; [|done].
      by injection Hrun as <- <-.
    - by injection Hrun as <- <-. }
  destruct Hcached as [Hh Hp]. split; [done|]. split; [done|].
  intros Hnz cs'. simpl. rewrite Hh.
  by destruct (Z.eqb_spec h 0).
Qed.

(** *** Identity sub-attributes *)

Lemma hashInput_identity_only cs :
  concat (map (hashInput true) cs)
  = concat (map (hashInput true)
              (List.filter (fun c => IsIdentity (Property.Attribute c)) cs)).
Proof.
  induction cs as [|c rest IH]; [done|]. simpl.
  destruct (IsIdentity (Property.Attribute c)) eqn:Hid; simpl.
  - by rewrite IH.
  - unfold hashInput at 1, skipped. by rewrite Hid.
Qed.

(** X19.  When the attribute has identity sub-attributes, the digest
    depends on the identity children alone: two properties whose
    identity children are the same get the same digest from
    [computeHash], whatever their other children hold. *)
Theorem digest_depends_on_identity_children_only p q :
  HasIdentitySubAttributes (attr p) = true ->
  HasIdentitySubAttributes (attr q) = true ->
  List.filter (fun c => IsIdentity (Property.Attribute c)) (subProps p)
  = List.filter (fun c => IsIdentity (Property.Attribute c)) (subProps q) ->
  Forall (hashReturns true) (subProps p) ->
  Forall (hashReturns true) (subProps q) ->
  (computeHash p).2 = Val tt /\ (computeHash q).2 = Val tt
  /\ hash (computeHash p).1 = hash (computeHash q).1.
Proof.
  intros Hp Hq Hsame Hallp Hallq. unfold computeHash, ForEachChild.
  rewrite Hp, Hq.
  rewrite (rangeSubProps_hashChild _ _ _ _ Hallp),
    (rangeSubProps_hashChild _ _ _ _ Hallq). simpl.
  split; [done|]. split; [done|].
  by rewrite (hashInput_identity_only (subProps p)),
    (hashInput_identity_only (subProps q)), Hsame.
Qed.

(** *** Matches *)

(** X20.  With an [Equals] on attributes that is symmetric, [Matches] is
    symmetric in its verdict: [p.Matches(q)] returns true exactly when
    [q.Matches(p)] does.  A property whose [Hash] returns matches itself
    when its attribute equals itself. *)
Theorem Matches_is_symmetric
    (Equals : schema.Attribute -> schema.Attribute -> bool) p q :
  (forall a b, Equals a b = Equals b a) ->
  ((Matches Equals p q).2 = Val true <-> (Matches Equals q p).2 = Val true)
  /\ (Equals (attr p) (attr p) = true ->
      (exists sum, (Hash p).2 = Val sum) ->
      (Matches Equals p p).2 = Val true).
Proof.
  intros Hsym. split.
  - unfold Matches, Attribute, CountChildren.
    rewrite (Hsym (attr q) (attr p)).
    destruct (Equals (attr p) (attr q)); simpl; [|done].
    rewrite (Nat.eqb_sym (length (subProps q))).
    destruct (length (subProps p) =? length (subProps q))%nat; simpl;
      [|done].
    destruct (Hash p) as [p1 [hp|r]], (Hash q) as [q1 [hq|r']]; simpl;
      try done.
    by rewrite (Z.eqb_sym hq).
  - intros Heq [sum Hsum]. unfold Matches, Attribute, CountChildren.
    rewrite Heq, Nat.eqb_refl. simpl.
    destruct (Hash p) as [p1 [hp|r]]; simpl in *; [|done].
    by rewrite Z.eqb_refl.
Qed.

(** *** NewComplexOf *)

(** X21.  [NewComplexOf] with nil is [NewComplex].  With any value it
    returns a property exactly when [NewComplex] returns one and [Add] of
    the value on it returns nil, and the property is the one [Add] left.
    With a value that is neither nil nor a mapping it panics with the
    message of the InvalidValue error. *)
Theorem NewComplexOf_adds_or_panics (K : Property.constructors T)
    (a : schema.Attribute) v :
  NewComplexOf K a VNil = NewComplex K a
  /\ (forall p', NewComplexOf K a v = Val p'
                 <-> exists p, NewComplex K a = Val p
                               /\ Add v p = (p', Val None))
  /\ (forall p, NewComplex K a = Val p ->
                v <> VNil -> (forall m, v <> VMap m) ->
                NewComplexOf K a v
                = Panic ("value of type " ++ typeName v
                           ++ " is incompatible with attribute '"
                           ++ Path a ++ "'")).
Proof.
  split_and!.
  - unfold NewComplexOf. by destruct (NewComplex K a).
  - intros p'. unfold NewComplexOf.
    destruct (NewComplex K a) as [p|r];
      [|split; [done | by intros (? & ? & _)]].
    destruct (Add v p) as [p2 [[[msg|msg]|]|r]] eqn:Hadd.
    + split; [done | intros (? & [= <-] & ?); congruence].
    + split; [done | intros (? & [= <-] & ?); congruence].
    + split.
      * intros [= <-]. by exists p.
      * intros (? & [= <-] & ?). congruence.
    + split; [done | intros (? & [= <-] & ?); congruence].
  - intros p Hnew Hnil Hmap. unfold NewComplexOf. rewrite Hnew.
    rewrite (Add_refuses p v Hnil Hmap). unfold errIncompatibleValue.
    unfold NewComplex in Hnew.
    destruct (negb (SingleValued a) || negb (Type_ a =? TypeComplex)%string);
      [done|].
    destruct (fold_left (addSubAttribute K) (SubAttributes a) (Val ([], ∅)))
      as [[cs idx]|r]; [|done].
    by injection Hnew as <-.
Qed.

(** *** Raw *)

Lemma mapGet_mapSet (m : list (string * value)) (k k' : string) v :
  mapGet (mapSet m k v) k'
  = if String.eqb k k' then Some v else mapGet m k'.
Proof.
  induction m as [|[a b] rest IH]; simpl; [done|].
  destruct (String.eqb_spec a k) as [->|Hak]; simpl.
  - by destruct (String.eqb k k').
  - rewrite IH. destruct (String.eqb_spec a k') as [->|Hak']; [|done].
    by destruct (String.eqb_spec k k').
Qed.

Lemma mapSet_keys (m : list (string * value)) (k : string) v :
  NoDup (map fst m) ->
  NoDup (map fst (mapSet m k v))
  /\ forall k', k' ∈ map fst (mapSet m k v) <-> k' = k \/ k' ∈ map fst m.
Proof.
  induction m as [|[a b] rest IH]; simpl; intros Hnd.
  - split; [apply NoDup_singleton|]. intros k'.
    rewrite list_elem_of_singleton. split; [by left|].
    intros [?|?%elem_of_nil]; done.
  - apply NoDup_cons in Hnd as [Ha Hnd]. destruct (IH Hnd) as [IHnd IHin].
    destruct (String.eqb_spec a k) as [->|Hak]; simpl.
    + split; [by apply NoDup_cons|]. intros k'.
      rewrite !elem_of_cons. tauto.
    + split.
      * apply NoDup_cons. split; [|done]. rewrite IHin.
        intros [?|?]; done.
      * intros k'. rewrite !elem_of_cons, IHin. tauto.
Qed.

Lemma lastNamed_Some (n : string) cs :
  is_Some (lastNamed n cs)
  <-> exists c, c ∈ cs /\ Name (Property.Attribute c) = n.
Proof.
  induction cs as [|c rest IH]; simpl.
  - split; [by intros [? ?] | intros (? & ?%elem_of_nil & _); done].
  - destruct (lastNamed n rest) as [x|].
    + split; [intros _|by eexists].
      destruct (proj1 IH) as (c' & Hin & Hn); [by eexists|].
      exists c'. split; [by right | done].
    + destruct (String.eqb_spec (Name (Property.Attribute c)) n) as [E|E].
      * split; [intros _|by eexists]. exists c. split; [by left | done].
      * split; [by intros [? ?]|].
        intros (c' & [->|Hin]%elem_of_cons & Hn); [done|].
        apply IH. by exists c'.
Qed.

Lemma Raw_fold cs :
  forall values : list (string * value),
    NoDup (map fst values) ->
    let result :=
      fold_left
        (fun values c =>
           mapSet values (Name (Property.Attribute c)) (Property.Raw c))
        cs values in
    NoDup (map fst result)
    /\ (forall n, mapGet result n
                  = match lastNamed n cs with
                    | Some c => Some (Property.Raw c)
                    | None => mapGet values n
                    end)
    /\ (forall n, n ∈ map fst result
                  <-> n ∈ map fst values
                      \/ exists c, c ∈ cs /\ Name (Property.Attribute c) = n).
Proof.
  induction cs as [|c rest IH]; intros values Hnd; simpl.
  - split; [done|]. split; [done|]. intros n. split; [by left|].
    intros [?|(? & ?%elem_of_nil & _)]; done.
  - destruct (mapSet_keys values (Name (Property.Attribute c))
                (Property.Raw c) Hnd) as [Hnd' Hin'].
    destruct (IH _ Hnd') as (IHnd & IHget & IHin).
    split; [done|]. split.
    + intros n. rewrite IHget, mapGet_mapSet.
      destruct (lastNamed n rest); [done|].
      by destruct (String.eqb (Name (Property.Attribute c)) n).
    + intros n. rewrite IHin, Hin'. split.
      * intros [[->|Hv]|(c' & Hc' & Hn)].
        -- right. exists c. split; [by left | done].
        -- by left.
        -- right. exists c'. split; [by right | done].
      * intros [Hv|(c' & [->|Hc']%elem_of_cons & Hn)].
        -- left. by right.
        -- left. by left.
        -- right. by exists c'.
Qed.

(** X22.  [Raw()] always returns a mapping; its keys are distinct and
    are exactly the attribute names of the children, as the schema spells
    them; under a name it holds the [Raw()] of the last child whose
    attribute bears that name, and nothing under any other name. *)
Theorem Raw_lists_every_child p :
  exists values,
    Raw p = VMap values
    /\ NoDup (map fst values)
    /\ (forall n, n ∈ map fst values
                  <-> exists c, c ∈ subProps p
                                /\ Name (Property.Attribute c) = n)
    /\ (forall n, mapGet values n
                  = Property.Raw <$> lastNamed n (subProps p)).
Proof.
  rewrite Raw_entries. eexists. split; [reflexivity|].
  destruct (Raw_fold (subProps p) [] (NoDup_nil_2 (A := string)))
    as (Hnd & Hget & Hin).
  split; [done|]. split.
  - intros n. rewrite Hin. split; [|by right].
    intros [Hnil|Hc]; [|done]. by apply elem_of_nil in Hnil.
  - intros n. rewrite Hget. by destruct (lastNamed n (subProps p)).
Qed.

(** *** The order in which Add visits the entries *)

Lemma addEntries_addEntry (k : string) v (m : list (string * value)) p :
  addEntries ((k, v) :: m) p
  = match addEntry k v p with
    | (p1, Val None) => addEntries m p1
    | (p1, r) => (p1, r)
    end.
Proof.
  rewrite addEntries_cons. unfold addEntry.
  destruct (nameIndex p !! ToLower k) as [i|]; [|done].
  by destruct (onChild i _ p) as [p1 [[e|]|r]].
Qed.

Lemma addEntry_index (k : string) v p :
  nameIndex (addEntry k v p).1 = nameIndex p.
Proof.
  unfold addEntry. destruct (nameIndex p !! ToLower k) as [i|]; [|done].
  apply onChild_frame.
Qed.

(** Two entries that address different children, or none, can be taken
    in either order. *)
Lemma addEntry_commute (kx ky : string) vx vy p pa pb :
  (forall i, nameIndex p !! ToLower kx = Some i ->
             nameIndex p !! ToLower ky = Some i -> False) ->
  addEntry kx vx p = (pa, Val None) ->
  addEntry ky vy pa = (pb, Val None) ->
  exists pa', addEntry ky vy p = (pa', Val None)
              /\ addEntry kx vx pa' = (pb, Val None).
Proof.
  intros Hdiff Hx Hy.
  pose proof (addEntry_index kx vx p) as Hn. rewrite Hx in Hn. simpl in Hn.
  unfold addEntry in *. rewrite Hn in Hy.
  destruct (nameIndex p !! ToLower kx) as [i|] eqn:Hi.
  - unfold onChild in Hx.
    destruct (subProps p !! i) as [ci|] eqn:Hci; [|done].
    destruct (Property.Add ci vx) as [ci' [[e|]|r]] eqn:Hadd; try done.
    injection Hx as <-.
    destruct (nameIndex p !! ToLower ky) as [j|] eqn:Hj.
    + assert (Hne : i <> j) by (intros ->; by eapply Hdiff).
      unfold onChild in *. simpl in *.
      rewrite list_lookup_insert_ne in Hy by done.
      destruct (subProps p !! j) as [cj|] eqn:Hcj; [|done].
      destruct (Property.Add cj vy) as [cj' [[e|]|r]]; try done.
      injection Hy as <-. eexists. split; [reflexivity|]. simpl.
      rewrite Hi. simpl. rewrite list_lookup_insert_ne by done.
      rewrite Hci, Hadd. unfold withSubProps. simpl.
      by rewrite list_insert_insert_ne.
    + injection Hy as <-. exists p. split; [done|].
      rewrite Hi. unfold onChild. by rewrite Hci, Hadd.
  - injection Hx as <-. exists pb. split; [done|].
    pose proof (addEntry_index ky vy p) as Hn'. unfold addEntry in Hn'.
    rewrite Hy in Hn'. simpl in Hn'. by rewrite Hn', Hi.
Qed.

Lemma addEntries_permutation (m m' : list (string * value)) :
  m ≡ₚ m' ->
  forall p p1,
    (forall (s1 s2 : string) (i : nat),
        nameIndex p !! s1 = Some i -> nameIndex p !! s2 = Some i ->
        s1 = s2) ->
    NoDup (map (fun kv : string * value => ToLower kv.1) m) ->
    addEntries m p = (p1, Val None) ->
    addEntries m' p = (p1, Val None).
Proof.
  induction 1 as [|[k v] l l' Hperm IH|[kx vx] [ky vy] l|l l' l'' H1 IH1 H2 IH2];
    intros p p1 Hinj Hnd Hrun.
  - done.
  - rewrite addEntries_addEntry in *. simpl in Hnd.
    apply NoDup_cons in Hnd as [_ Hnd].
    pose proof (addEntry_index k v p) as Hn.
    destruct (addEntry k v p) as [p2 [[e|]|r]]; try done.
    simpl in Hn. apply IH; [|done|done]. by rewrite Hn.
  - rewrite !addEntries_addEntry in *. simpl in Hnd.
    apply NoDup_cons in Hnd as [Hne _].
    rewrite not_elem_of_cons in Hne. destruct Hne as [Hne _].
    destruct (addEntry ky vy p) as [pa [[e|]|r]] eqn:Hy; try done.
    rewrite addEntries_addEntry in Hrun.
    destruct (addEntry kx vx pa) as [pb [[e|]|r]] eqn:Hx; try done.
    destruct (addEntry_commute ky kx vy vx p pa pb) as (pa' & Hx' & Hy');
      [|done|done|].
    + intros i Hi Hj. by apply Hne, (Hinj _ _ i).
    + by rewrite Hx', addEntries_addEntry, Hy'.
  - apply (IH2 p p1 Hinj).
    + by apply (proj1 (NoDup_Permutation_proper _ _
                         (Permutation_map
                            (fun kv : string * value => ToLower kv.1) H1))).
    + by apply IH1.
Qed.

(** X23.  The order in which [Add] visits the entries of a mapping does
    not matter when the call goes through and no two keys are equal up to
    case: on a property whose index mirrors its children, such a mapping
    visited in any other order gives the same property and the same nil
    result. *)
Theorem Add_ignores_the_order_of_entries p (m m' : list (string * value)) :
  wellIndexed p ->
  m ≡ₚ m' ->
  NoDup (map (fun kv : string * value => ToLower kv.1) m) ->
  (Add (VMap m) p).2 = Val None ->
  Add (VMap m') p = Add (VMap m) p.
Proof.
  intros Hwf Hperm Hnd Hok. unfold Add, bind in *.
  destruct (addEntries m p) as [p1 [[e|]|r]] eqn:Hrun; try done.
  rewrite (addEntries_permutation m m' Hperm p p1); try done.
  intros s1 s2 i H1 H2.
  apply (wellIndexed_sound p _ _ Hwf) in H1 as (c1 & Hc1 & <-).
  apply (wellIndexed_sound p _ _ Hwf) in H2 as (c2 & Hc2 & <-).
  congruence.
Qed.

(** *** Delete empties *)

Lemma forallb_all {A : Type} (f : A -> bool) (l : list A) :
  Forall (fun x => f x = true) l -> forallb f l = true.
Proof. induction 1 as [|x l Hx _ IH]; [done|]. simpl. by rewrite Hx, IH. Qed.

Lemma rangeSubProps_Delete_all cs (i : nat) :
  Forall (fun c => (Property.Delete c).2 = Val None) cs ->
  rangeSubProps
    (fun _ subProp (_ : unit) =>
       match Property.Delete subProp with
       | (subProp, r) => ((subProp, tt), r)
       end) i cs tt
  = ((map (fun c => (Property.Delete c).1) cs, tt), Val None).
Proof.
  intros Hall.
  destruct (rangeSubProps_Delete_outcome cs i)
    as [[_ Hrun] | (cs1 & c & cs2 & -> & _ & Hc & _)]; [done|].
  apply Forall_app in Hall as [_ Hall].
  apply Forall_cons in Hall as [Hok _]. done.
Qed.

(** X24.  When the [Delete] of every child returns nil and leaves the
    child unassigned, [Delete] returns nil, the children are exactly
    what their own [Delete] made of them, the property is unassigned, and
    the cached hash is the sum over the names alone of the children that
    the hash does not skip: it no longer depends on any value. *)
Theorem Delete_empties p :
  let del := fun c : T => (Property.Delete c).1 in
  let hasIdentity := HasIdentitySubAttributes (attr p) in
  Forall (fun c => (Property.Delete c).2 = Val None
                   /\ Property.IsUnassigned (del c) = true) (subProps p) ->
  Delete p
  = ({| attr := attr p;
        subProps := map del (subProps p);
        nameIndex := nameIndex p;
        hash := fnv.sum64a
                  (concat
                     (map (fun c =>
                             if skipped hasIdentity c then []
                             else bytesOf (Name (Property.Attribute c)))
                        (map del (subProps p)))) |}, Val None)
  /\ IsUnassigned (Delete p).1 = true.
Proof.
  intros del hasIdentity Hall.
  assert (Hdel : Forall (fun c => (Property.Delete c).2 = Val None)
                   (subProps p))
    by (eapply Forall_impl; [exact Hall | by intros c [? _]]).
  assert (Hun : Forall (fun c => Property.IsUnassigned c = true)
                  (map del (subProps p)))
    by (apply Forall_fmap; eapply Forall_impl;
        [exact Hall | by intros c [_ ?]]).
  assert (Hret : Forall (hashReturns hasIdentity) (map del (subProps p)))
    by (eapply Forall_impl; [exact Hun|];
        intros c Hc _ Hu; congruence).
  assert (Hsame : map (hashed hasIdentity) (map del (subProps p))
                  = map del (subProps p)).
  { rewrite <- (map_id (map del (subProps p))) at 2.
    apply map_ext_Forall. eapply Forall_impl; [exact Hun|].
    intros c Hc. unfold hashed. by rewrite Hc, orb_true_r. }
  assert (Hinput : map (hashInput hasIdentity) (map del (subProps p))
                   = map (fun c =>
                            if skipped hasIdentity c then []
                            else bytesOf (Name (Property.Attribute c)))
                       (map del (subProps p))).
  { apply map_ext_Forall. eapply Forall_impl; [exact Hun|].
    intros c Hc. unfold hashInput. rewrite Hc.
    destruct (skipped hasIdentity c); [done | apply app_nil_r]. }
  assert (Hcall : Delete p
                  = ({| attr := attr p;
                        subProps := map del (subProps p);
                        nameIndex := nameIndex p;
                        hash := fnv.sum64a
                                  (concat
                                     (map (fun c =>
                                             if skipped hasIdentity c
                                             then []
                                             else bytesOf
                                                    (Name
                                                       (Property.Attribute c)))
                                        (map del (subProps p)))) |},
                     Val None)).
  { unfold Delete. rewrite (rangeSubProps_Delete_all _ _ Hdel).
    unfold bind, computeHash, ForEachChild. simpl.
    fold hasIdentity. fold del.
    rewrite (rangeSubProps_hashChild _ _ _ _ Hret). simpl.
    unfold withHash, fnv.sum64a. simpl. by rewrite Hsame, Hinput. }
  split; [done|]. rewrite Hcall. simpl. unfold IsUnassigned. simpl.
  by apply forallb_all.
Qed.

(** *** A property without children *)

(** X25.  A complex property without children (an attribute without
    sub-attributes) is unassigned, not present and untouched, its [Raw()]
    is the empty mapping and its digest is the FNV-1a offset basis,
    which is not zero and so is cached; [Add] of any mapping that the
    index does not know and [Delete] return nil and change nothing but
    that cached digest. *)
Theorem childless_property p (m : list (string * value)) :
  subProps p = [] ->
  nameIndex p = ∅ ->
  let emptied := withHash 0xcbf29ce484222325%Z p in
  IsUnassigned p = true /\ Present p = false /\ Touched p = false
  /\ Raw p = VMap []
  /\ computeHash p = (emptied, Val tt)
  /\ Add (VMap m) p = (emptied, Val None)
  /\ Delete p = (emptied, Val None)
  /\ Replace (VMap m) p = (emptied, Val None)
  /\ forall k, ChildAtIndex p (VString k) = Val None.
Proof.
  intros Hcs Hidx emptied.
  assert (Hraw : Raw p = VMap []) by (by rewrite Raw_entries, Hcs).
  assert (Hhash : forall h, computeHash (withHash h p) = (emptied, Val tt)).
  { intros h. unfold computeHash, ForEachChild. simpl. rewrite Hcs. simpl.
    unfold emptied, withHash. simpl. by rewrite Hcs. }
  assert (Hhash' : computeHash p = (emptied, Val tt)).
  { specialize (Hhash (hash p)). by destruct p. }
  assert (Hloop : forall q, nameIndex q = ∅ -> addEntries m q = (q, Val None)).
  { intros q Hq. induction m as [|[k v] rest IH]; [done|].
    by rewrite addEntries_cons, Hq, lookup_empty. }
  assert (Hadd : forall q, nameIndex q = ∅ ->
                           computeHash q = (emptied, Val tt) ->
                           Add (VMap m) q = (emptied, Val None)).
  { intros q Hq Hc. unfold Add, bind. by rewrite (Hloop q Hq), Hc. }
  assert (Hdel : Delete p = (emptied, Val None)).
  { unfold Delete. rewrite Hcs. simpl. unfold bind.
    replace (withSubProps [] p) with p by (destruct p; simpl in *; by subst).
    by rewrite Hhash'. }
  unfold IsUnassigned, Present, Touched. rewrite Hcs. simpl.
  split_and!; try done.
  - by apply Hadd.
  - unfold Replace, deferRecover, bind. rewrite Hdel. cbv beta iota.
    rewrite (Hloop emptied) by done.
    unfold emptied at 1. by rewrite Hhash.
  - intros k. unfold ChildAtIndex. by rewrite Hidx, lookup_empty.
Qed.

(** *** With children that keep the promises of the interface *)

Section lawful_children.

Context `{!Property.lawful T}.

Lemma computeHash_attributes p :
  map Property.Attribute (subProps (computeHash p).1)
  = map Property.Attribute (subProps p).
Proof.
  pose proof (rangeSubProps_hashChild_reads
                (HasIdentitySubAttributes (attr p)) (subProps p) 0
                fnv.New64a) as Hreads.
  unfold computeHash, ForEachChild.
  assert (Hmap : forall cs cs' : list T,
             Forall2
               (fun c c' =>
                  Property.Attribute c' = Property.Attribute c
                  /\ Property.Raw c' = Property.Raw c
                  /\ Property.IsUnassigned c' = Property.IsUnassigned c)
               cs cs' ->
             map Property.Attribute cs' = map Property.Attribute cs).
  { induction 1 as [|c c' rest rest' (Ha & _) _ IH]; [done|].
    simpl. by rewrite Ha, IH. }
  destruct (rangeSubProps _ 0 (subProps p) fnv.New64a) as [[cs h] [[e|]|r]];
    simpl in *; by apply Hmap.
Qed.

Lemma addEntries_attributes (m : list (string * value)) :
  forall p,
    map Property.Attribute (subProps (addEntries m p).1)
    = map Property.Attribute (subProps p).
Proof.
  induction m as [|[k v] rest IH]; intros p; [done|].
  rewrite addEntries_cons.
  destruct (nameIndex p !! ToLower k) as [i|]; [|apply IH].
  unfold onChild. destruct (subProps p !! i) as [c|] eqn:Hi; [|done].
  pose proof (Property.Add_Attribute c v) as Hattr.
  destruct (Property.Add c v) as [c1 [[e|]|r]]; simpl in *;
    try (by eapply insert_keeps_attributes).
  rewrite IH. simpl. by eapply insert_keeps_attributes.
Qed.

Lemma Add_attributes v p :
  map Property.Attribute (subProps (Add v p).1)
  = map Property.Attribute (subProps p).
Proof.
  destruct v; try done. unfold Add, bind.
  pose proof (addEntries_attributes m p) as Hloop.
  destruct (addEntries m p) as [p1 [[e|]|r]]; simpl in *; try done.
  pose proof (computeHash_attributes p1) as Hhash.
  destruct (computeHash p1) as [p2 [[]|r]]; simpl in *; congruence.
Qed.

Lemma rangeSubProps_Delete_attributes cs (i : nat) :
  map Property.Attribute
    (rangeSubProps
       (fun _ subProp (_ : unit) =>
          match Property.Delete subProp with
          | (subProp, r) => ((subProp, tt), r)
          end) i cs tt).1.1
  = map Property.Attribute cs.
Proof.
  revert i. induction cs as [|c rest IH]; intros i; [done|].
  simpl. pose proof (Property.Delete_Attribute c) as Hc.
  destruct (Property.Delete c) as [c1 [[e|]|r]]; simpl in *;
    try (by rewrite Hc).
  specialize (IH (S i)).
  match goal with |- context [rangeSubProps ?f (S i) rest tt] =>
    destruct (rangeSubProps f (S i) rest tt) as [[rest1 u] r1] end.
  simpl in *. by rewrite Hc, IH.
Qed.

Lemma Delete_attributes p :
  map Property.Attribute (subProps (Delete p).1)
  = map Property.Attribute (subProps p).
Proof.
  unfold Delete.
  pose proof (rangeSubProps_Delete_attributes (subProps p) 0) as Hcs.
  match goal with |- context [rangeSubProps ?f 0 (subProps p) tt] =>
    destruct (rangeSubProps f 0 (subProps p) tt)
      as [[cs u] [[e|]|r]] end; simpl in *; try done.
  unfold bind.
  pose proof (computeHash_attributes (withSubProps cs p)) as Hhash.
  destruct (computeHash (withSubProps cs p)) as [p2 [[]|r]];
    simpl in *; congruence.
Qed.

Lemma Replace_attributes v p :
  map Property.Attribute (subProps (Replace v p).1)
  = map Property.Attribute (subProps p).
Proof.
  assert (Hbody : forall b : M (complexProperty T) (option error),
             b = bind Delete
                   (fun err => match err with
                               | Some e => ret (Some e)
                               | None => Add v
                               end) ->
             map Property.Attribute (subProps (b p).1)
             = map Property.Attribute (subProps p)).
  { intros b ->. unfold bind.
    pose proof (Delete_attributes p) as Hd.
    destruct (Delete p) as [p1 [[e|]|r]]; simpl in *; try done.
    by rewrite Add_attributes. }
  destruct v; try done; unfold Replace, deferRecover;
    match goal with |- context [bind ?a ?b p] =>
      specialize (Hbody (bind a b) eq_refl);
      destruct (bind a b p) as [p' [r|r]] end; done.
Qed.

Lemma Hash_attributes p :
  map Property.Attribute (subProps (Hash p).1)
  = map Property.Attribute (subProps p).
Proof.
  unfold Hash, bind, get. destruct (hash p =? 0)%Z; [|done].
  pose proof (computeHash_attributes p) as Hh.
  by destruct (computeHash p) as [p1 [[]|r]].
Qed.

(** X7.  With children that stay bound to their attribute, every child
    of a complex property keeps its attribute through [Add], [Delete],
    [Replace] and [Hash], however they end.  So a property whose children
    mirror the sub-attributes, whose index mirrors the children and whose
    names are distinct remains such a property. *)
Theorem mutations_keep_the_invariant p v :
  let same q :=
    map Property.Attribute (subProps q) = map Property.Attribute (subProps p)
    /\ (wellIndexed p -> wellIndexed q)
    /\ (distinctNames p -> distinctNames q) in
  same (Add v p).1 /\ same (Delete p).1 /\ same (Replace v p).1
  /\ same (Hash p).1.
Proof.
  assert (Hsame : forall q,
             nameIndex q = nameIndex p ->
             map Property.Attribute (subProps q)
             = map Property.Attribute (subProps p) ->
             map Property.Attribute (subProps q)
             = map Property.Attribute (subProps p)
             /\ (wellIndexed p -> wellIndexed q)
             /\ (distinctNames p -> distinctNames q)).
  { intros q Hn Ha. split; [done|]. split.
    - by apply wellIndexed_ext.
    - by apply distinctNames_ext. }
  split; [|split; [|split]]; apply Hsame.
  - apply Add_frame.
  - apply Add_attributes.
  - apply Delete_frame.
  - apply Delete_attributes.
  - apply Replace_frame.
  - apply Replace_attributes.
  - apply Hash_frame.
  - apply Hash_attributes.
Qed.

End lawful_children.

End complex.

#[local] Existing Instance sample.tables.


Lemma stringProperty_bound (sub : schema.Attribute) (c : stringProperty.t) :
  newSubProperty stringProperty.constructors sub = Val c ->
  Property.Attribute c = sub.
Proof.
  unfold newSubProperty. destruct (MultiValued sub) eqn:Hm; [done|].
  destruct (String.eqb (Type_ sub) TypeString) eqn:Ht.
  - simpl. unfold stringProperty.NewString. rewrite Hm, Ht. simpl.
    by intros [= <-].
  - repeat match goal with
           | |- context [String.eqb (Type_ sub) ?t] =>
               destruct (String.eqb (Type_ sub) t); [done|]
           end.
    done.
Qed.

Lemma mutations_keep_the_invariant_witness :
  let v := VMap [("familyName", VString "King")] in
  wellIndexed sample.ada /\ wellIndexed (Add v sample.ada).1
  /\ wellIndexed (Replace v sample.ada).1.
Proof.
  intros v.
  assert (Hwf : wellIndexed sample.ada) by (vm_compute; reflexivity).
  destruct (mutations_keep_the_invariant sample.ada v)
    as ((_ & Hadd & _) & _ & (_ & Hreplace & _) & _).
  split; [exact Hwf|]. split; [by apply Hadd | by apply Hreplace].
Defined.

Lemma ChildAtIndex_finds_children_witness :
  wellIndexed sample.ada
  /\ ChildAtIndex sample.ada (VString "FamilyNAME")
     = ChildAtIndex sample.ada (VString "familyName")
  /\ ChildAtIndex sample.ada (VInt 1) = Val None.
Proof.
  assert (Hwf : wellIndexed sample.ada) by (vm_compute; reflexivity).
  destruct (ChildAtIndex_finds_children sample.ada "familyName" Hwf)
    as (_ & Hother & _ & _ & _ & Hcase & _).
  split; [exact Hwf|]. split.
  - apply Hcase. reflexivity.
  - apply Hother. intros x. discriminate.
Defined.

Lemma NewComplex_builds_the_invariant_witness :
  NewComplex stringProperty.constructors sample.name = Val sample.newName
  /\ CountChildren sample.newName = 2
  /\ wellIndexed sample.newName.
Proof.
  assert (Hnew : NewComplex stringProperty.constructors sample.name
                 = Val sample.newName) by (vm_compute; reflexivity).
  destruct (NewComplex_builds_the_invariant stringProperty.constructors
              sample.name sample.newName stringProperty_bound Hnew)
    as (_ & _ & Hcount & Hwf & _).
  split; [exact Hnew|]. split; [exact Hcount | exact Hwf].
Defined.

Lemma ForEachChild_stops_witness :
  exists c0 c1,
    subProps sample.newName = ([c0] ++ c1 :: [])%list
    /\ ForEachChild sample.countUntilSecond (sample.newName, 0)
       = ((sample.newName, 1), Val (Some (Internal "stop"))).
Proof.
  destruct (subProps sample.newName) as [|c0 [|c1 [|]]] eqn:Hcs;
    try (vm_compute in Hcs; discriminate Hcs).
  exists c0, c1. split; [reflexivity|].
  rewrite (ForEachChild_stops_at_first_error sample.countUntilSecond
             sample.newName 0 [c0] c1 [] [c0] 1 Hcs eq_refl);
    [|discriminate].
  simpl. rewrite <- Hcs. by rewrite withSubProps_same.
Defined.

Lemma Add_stops_at_first_refusal_witness :
  let m1 := [("givenName", VString "Ada")] in
  let m2 := [("givenName", VString "Grace")] in
  let after :=
    Add (VMap (m1 ++ ("familyName", VInt 7) :: m2)) sample.newName in
  after.2
  = Val (Some (InvalidValue
       "value of type int64 is incompatible with attribute 'name.familyName'"))
  /\ hash after.1 = hash sample.newName
  /\ Raw after.1 = VMap [("givenName", VString "Ada"); ("familyName", VNil)].
Proof.
  intros m1 m2 after.
  destruct (addEntries m1 sample.newName) as [p1 r1] eqn:Hm1.
  assert (Hr1 : r1 = Val None)
    by (apply (f_equal snd) in Hm1; vm_compute in Hm1; congruence).
  subst r1.
  destruct (subProps p1 !! 1) as [c|] eqn:Hc;
    [|apply (f_equal fst) in Hm1; simpl in Hm1; subst p1;
      vm_compute in Hc; discriminate Hc].
  assert (He : (Property.Add c (VInt 7)).2
               = Val (Some (InvalidValue
                    "value of type int64 is incompatible with attribute 'name.familyName'"))).
  { apply (f_equal fst) in Hm1. simpl in Hm1. subst p1.
    vm_compute in Hc. injection Hc as <-. vm_compute. reflexivity. }
  assert (Hcall := Add_stops_at_first_refusal sample.newName p1 m1 m2
                     "familyName" (VInt 7) 1 c _ Hm1 eq_refl Hc He).
  subst after. rewrite Hcall. simpl.
  split; [reflexivity|]. split; [reflexivity|].
  apply (f_equal fst) in Hm1. simpl in Hm1. subst p1.
  vm_compute in Hc. injection Hc as <-. vm_compute. reflexivity.
Defined.

Lemma Hash_is_cached_witness :
  exists h : Z,
    Hash sample.ada = (sample.ada, Val h) /\ h <> 0%Z
    /\ Hash (withSubProps [] sample.ada) = (withSubProps [] sample.ada, Val h).
Proof.
  destruct (Hash sample.ada) as [p1 [h|r]] eqn:Hrun;
    [|vm_compute in Hrun; discriminate Hrun].
  destruct (Hash_is_cached sample.ada p1 h Hrun) as (Hh & Hsame & Hagain).
  assert (Hp1 : p1 = sample.ada)
    by (apply Hsame; vm_compute; discriminate).
  subst p1.
  assert (Hnz : h <> 0%Z) by (rewrite <- Hh; vm_compute; discriminate).
  exists h. split; [reflexivity|]. split; [exact Hnz|]. by apply Hagain.
Defined.

Lemma digest_depends_on_identity_children_only_witness :
  let a := VMap [("value", VString "2819c223"); ("display", VString "Ada")] in
  let b := VMap [("value", VString "2819c223"); ("display", VString "A. King")] in
  let p := (Add a sample.newMember).1 in
  let q := (Add b sample.newMember).1 in
  Raw p <> Raw q /\ hash (computeHash p).1 = hash (computeHash q).1.
Proof.
  intros a b p q. split; [vm_compute; discriminate|].
  apply (digest_depends_on_identity_children_only p q).
  - vm_compute; reflexivity.
  - vm_compute; reflexivity.
  - vm_compute; reflexivity.
  - repeat constructor; intros _ _; eexists; vm_compute; reflexivity.
  - repeat constructor; intros _ _; eexists; vm_compute; reflexivity.
Defined.

Lemma Matches_is_symmetric_witness :
  (forall a b, sample.sameNameAndPath a b = sample.sameNameAndPath b a)
  /\ (Matches sample.sameNameAndPath sample.ada sample.ada).2 = Val true.
Proof.
  assert (Hsym : forall a b,
             sample.sameNameAndPath a b = sample.sameNameAndPath b a).
  { intros a b. unfold sample.sameNameAndPath.
    by rewrite (String.eqb_sym (Name a)), (String.eqb_sym (Path a)). }
  split; [exact Hsym|].
  apply (Matches_is_symmetric sample.sameNameAndPath sample.ada sample.ada
           Hsym).
  - vm_compute; reflexivity.
  - eexists. vm_compute. reflexivity.
Defined.

Lemma Add_ignores_the_order_witness :
  let m := [("givenName", VString "Ada"); ("FAMILYNAME", VString "King")] in
  let m' := [("FAMILYNAME", VString "King"); ("givenName", VString "Ada")] in
  Add (VMap m') sample.newName = Add (VMap m) sample.newName.
Proof.
  intros m m'.
  apply (Add_ignores_the_order_of_entries sample.newName m m').
  - vm_compute; reflexivity.
  - apply perm_swap.
  - apply (bool_decide_unpack _). vm_compute. reflexivity.
  - vm_compute. reflexivity.
Defined.

Lemma Delete_empties_witness :
  IsUnassigned sample.ada = false
  /\ IsUnassigned (Delete sample.ada).1 = true
  /\ (Delete sample.ada).2 = Val None.
Proof.
  split; [vm_compute; reflexivity|].
  destruct (Delete_empties sample.ada) as [Hcall Hun].
  - repeat constructor.
  - split; [exact Hun|]. by rewrite Hcall.
Defined.

Lemma childless_property_witness :
  subProps sample.newMeta = [] /\ nameIndex sample.newMeta = ∅
  /\ Raw sample.newMeta = VMap []
  /\ (Add (VMap [("version", VString "W/1")]) sample.newMeta).2 = Val None.
Proof.
  assert (Hcs : subProps sample.newMeta = []) by reflexivity.
  assert (Hidx : nameIndex sample.newMeta = ∅) by reflexivity.
  destruct (childless_property sample.newMeta
              [("version", VString "W/1")] Hcs Hidx)
    as (_ & _ & _ & Hraw & _ & Hadd & _).
  split; [exact Hcs|]. split; [exact Hidx|]. split; [exact Hraw|].
  by rewrite Hadd.
Defined.

End prop_more.
